(** * node-tar: the streaming parser, the extractor's path fix and the
      archive writer's hard-link cache and read loop.

    A shallow embedding of [lib/parse.js] (the parser state machine),
    [lib/unpack.js] (the extractor) and [lib/write-entry.js] (two
    revisions), with the properties the specification states about them. *)

From Stdlib Require Import ZArith Lia List String Ascii NArith DecimalString.
From Stdlib.Strings Require Import Byte.
From stdpp Require Import base gmap strings list.

Local Open Scope nat_scope.

(** A [Buffer] is a sequence of bytes; for an index that is not
    negative [buf.slice(a)] is [drop a buf] and [buf.slice(0, b)] is
    [take b buf]. *)
Abbreviation Buffer := (list byte).

(** [buf.slice (start)] and [buf.slice (0, end)] for any integer: an index
    below zero counts from the end of the buffer, and what falls outside
    the buffer is left out. *)
Definition slice_from (buf : Buffer) (start : Z) : Buffer :=
  drop (Z.to_nat (if (start <? 0)%Z then Z.of_nat (length buf) + start
                  else start)) buf.

Definition slice_to (buf : Buffer) (end_ : Z) : Buffer :=
  take (Z.to_nat (if (end_ <? 0)%Z then Z.of_nat (length buf) + end_
                  else end_)) buf.

(** The key/value object produced by [Pax.parse] and carried in
    [this[EX]] / [this[GEX]]. *)
Abbreviation Pax := (gmap string string).

(** ** Collaborators of the parser *)

(** What the parser reads from a decoded [Header]. *)
Module Header.
Record t := mk {
  block : Buffer;
  cksumValid : bool;
  path : string;
  linkpath : string;
  size : nat;
  type : string
}.
End Header.

(** A [ReadEntry] object: the fields the parser and the extractor read or
    assign.  The two counters are numbers that the parser subtracts from:
    they can go below zero. *)
Module ReadEntry.
Record t := mk {
  header : Header.t;
  extended : option Pax;
  globalExtended : option Pax;
  type : string;
  meta : bool;
  ignore : bool;
  path : string;
  linkpath : string;
  mode : N;
  mtime : option Z;
  atime : option Z;
  size : nat;
  remain : Z;
  blockRemain : Z
}.

Definition set_ignore (b : bool) (e : t) : t :=
  mk (header e) (extended e) (globalExtended e) (type e) (meta e) b
     (path e) (linkpath e) (mode e) (mtime e) (atime e) (size e)
     (remain e) (blockRemain e).

Definition set_remain (n : Z) (e : t) : t :=
  mk (header e) (extended e) (globalExtended e) (type e) (meta e) (ignore e)
     (path e) (linkpath e) (mode e) (mtime e) (atime e) (size e)
     n (blockRemain e).

Definition set_blockRemain (n : Z) (e : t) : t :=
  mk (header e) (extended e) (globalExtended e) (type e) (meta e) (ignore e)
     (path e) (linkpath e) (mode e) (mtime e) (atime e) (size e)
     (remain e) n.
End ReadEntry.

(** ** The parser ([lib/parse.js]) *)

Module Parser.

(** [this[STATE]]: one of the strings 'begin', 'body', 'meta', 'ignore'. *)
Inductive state := Begin | Body | Meta | Ignore.

(** [this[UNZIP]]: [null] before the first two bytes are seen, [false]
    for plain input, or the inflator object. *)
Inductive unzip (Z : Type) := UnzipNull | UnzipFalse | UnzipStream (z : Z).
Arguments UnzipNull {Z}.
Arguments UnzipFalse {Z}.
Arguments UnzipStream {Z} z.

(** What the parser does to the outside, in order: the events it emits
    and the calls it makes on the entry it is writing to.  [Entry e]
    stands for [this[QUEUE].push(e)]: the queue is first-in first-out and
    [NEXTENTRY] emits 'entry' for its elements in that order, when the
    consumer has finished the previous one. *)
Inductive event :=
| InvalidHeader (h : Header.t)
| MetaEntryTooLarge (e : ReadEntry.t)
| IgnoredEntry (e : ReadEntry.t)
| Entry (e : ReadEntry.t)
| EntryWrite (data : Buffer)
| EntryData (data : Buffer)
| EntryEnd
| MetaEvent (m : string)
| End.

(** Exceptions thrown out of the parser's methods; [EntryError] is what
    [entry.write (data)] throws. *)
Inductive exn :=
| ReferenceError (msg : string)
| TypeError (msg : string)
| Error (msg : string)
| EntryError.

Section WithCollaborators.

(** [new Header(chunk)] of [lib/header.js], [new Entry(header, ex, gex)]
    and [entry.write (data)] of [lib/read-entry.js], [Pax.parse] of
    [lib/pax.js], the decoding of a [Buffer] appended to a string
    ([this[META] += data]) and the inflator of [minizlib].

    [Entry_write e data] is [None] when the call throws; otherwise it is
    the entry object as the call leaves it, with the bytes the entry
    hands on to its consumer (its ['data'] event). *)
Variable Header_new : Buffer -> Header.t.
Variable Entry_new : Header.t -> option Pax -> option Pax -> ReadEntry.t.
Variable Entry_write : ReadEntry.t -> Buffer -> option (ReadEntry.t * Buffer).
Variable Pax_parse : string -> option Pax -> bool -> Pax.
Variable toString : Buffer -> string.
Context {Unzip : Type}.
Variable Unzip_new : Unzip.
Variable Unzip_write : Unzip -> option Buffer -> Unzip * list Buffer.
Variable Unzip_end : Unzip -> option Buffer -> Unzip * list Buffer.

Record t := mk {
  maxMetaEntrySize : nat;
  BUFFER : option Buffer;
  WRITEENTRY : option ReadEntry.t;
  STATE : state;
  META : string;
  EX : option Pax;
  GEX : option Pax;
  ENDED : bool;
  UNZIP : unzip Unzip;
  filter : ReadEntry.t -> bool
}.

Definition set_BUFFER (b : option Buffer) (p : t) : t :=
  mk (maxMetaEntrySize p) b (WRITEENTRY p) (STATE p) (META p) (EX p)
     (GEX p) (ENDED p) (UNZIP p) (filter p).
Definition set_WRITEENTRY (e : option ReadEntry.t) (p : t) : t :=
  mk (maxMetaEntrySize p) (BUFFER p) e (STATE p) (META p) (EX p)
     (GEX p) (ENDED p) (UNZIP p) (filter p).
Definition set_STATE (s : state) (p : t) : t :=
  mk (maxMetaEntrySize p) (BUFFER p) (WRITEENTRY p) s (META p) (EX p)
     (GEX p) (ENDED p) (UNZIP p) (filter p).
Definition set_META (m : string) (p : t) : t :=
  mk (maxMetaEntrySize p) (BUFFER p) (WRITEENTRY p) (STATE p) m (EX p)
     (GEX p) (ENDED p) (UNZIP p) (filter p).
Definition set_EX (x : option Pax) (p : t) : t :=
  mk (maxMetaEntrySize p) (BUFFER p) (WRITEENTRY p) (STATE p) (META p) x
     (GEX p) (ENDED p) (UNZIP p) (filter p).
Definition set_GEX (x : option Pax) (p : t) : t :=
  mk (maxMetaEntrySize p) (BUFFER p) (WRITEENTRY p) (STATE p) (META p)
     (EX p) x (ENDED p) (UNZIP p) (filter p).
Definition set_ENDED (b : bool) (p : t) : t :=
  mk (maxMetaEntrySize p) (BUFFER p) (WRITEENTRY p) (STATE p) (META p)
     (EX p) (GEX p) b (UNZIP p) (filter p).
Definition set_UNZIP (u : unzip Unzip) (p : t) : t :=
  mk (maxMetaEntrySize p) (BUFFER p) (WRITEENTRY p) (STATE p) (META p)
     (EX p) (GEX p) (ENDED p) u (filter p).

(** The module constant [maxMetaEntrySize = 1024 * 1024]. *)
Definition default_maxMetaEntrySize : nat := 1024 * 1024.

(** [constructor (opt)]: [opt.maxMetaEntrySize] when truthy,
    [opt.filter] when it is a function. *)
Definition constructor (opt_maxMetaEntrySize : option nat)
    (opt_filter : option (ReadEntry.t -> bool)) : t :=
  {| maxMetaEntrySize :=
       match opt_maxMetaEntrySize with
       | Some (S n) => S n
       | _ => default_maxMetaEntrySize
       end;
     BUFFER := None;
     WRITEENTRY := None;
     STATE := Begin;
     META := "";
     EX := None;
     GEX := None;
     ENDED := false;
     UNZIP := UnzipNull;
     filter := default (fun _ => true) opt_filter |}.

(** [consumeHeader (chunk)].  The third component is the exception the
    method ends with, if any.  In the branch of an oversize meta entry
    the source assigns the undeclared identifier [ignore] (no quotes)
    to [this[STATE]]: evaluating it throws a [ReferenceError] before
    the assignment takes place. *)
Definition consumeHeader (p : t) (chunk : Buffer)
    : t * list event * option exn :=
  let header := Header_new chunk in
  if negb (Header.cksumValid header) then
    (p, [InvalidHeader header], None)
  else
    let entry := Entry_new header (EX p) (GEX p) in
    let p := set_WRITEENTRY (Some entry) p in
    if ReadEntry.meta entry then
      if maxMetaEntrySize p <? ReadEntry.size entry then
        let entry' := ReadEntry.set_ignore true entry in
        (set_WRITEENTRY (Some entry') p,
         [MetaEntryTooLarge entry],
         Some (ReferenceError "ignore is not defined"))
      else
        (set_STATE Meta (set_META "" p), [], None)
    else
      let p := set_EX None p in
      let entry :=
        ReadEntry.set_ignore
          (ReadEntry.ignore entry || negb (filter p entry)) entry in
      let p := set_WRITEENTRY (Some entry) p in
      if ReadEntry.ignore entry then
        (set_STATE
           (if (ReadEntry.remain entry =? 0)%Z then Begin else Ignore) p,
         [IgnoredEntry entry], None)
      else
        (set_STATE
           (if (ReadEntry.remain entry =? 0)%Z then Begin else Body) p,
         (if ReadEntry.size entry is 0 then [EntryEnd] else [])
           ++ [Entry entry],
         None).

(** The result of the body consumers: the parser, what was emitted, the
    entry object as the call leaves it (it stays reachable from the
    queue and the consumer after the parser drops it), and the
    returned rest of the chunk ([null] is [None]). *)
Record consumed := Consumed {
  c_parser : t;
  c_events : list event;
  c_entry : option ReadEntry.t;
  c_ret : option Buffer;
  c_exn : option exn
}.

Definition no_entry (p : t) : consumed :=
  Consumed p [] None None
    (Some (TypeError "Cannot read property of null")).

(** [consumeIgnoreBody (chunk)] *)
Definition consumeIgnoreBody (p : t) (chunk : Buffer) : consumed :=
  match WRITEENTRY p with
  | None => no_entry p
  | Some entry =>
      let len := Z.of_nat (length chunk) in
      if (ReadEntry.blockRemain entry <=? len)%Z then
        Consumed (set_STATE Begin p) [] (Some entry)
          (Some (slice_from chunk (ReadEntry.blockRemain entry))) None
      else
        let entry :=
          ReadEntry.set_blockRemain (ReadEntry.blockRemain entry - len)
            entry in
        Consumed (set_WRITEENTRY (Some entry) p) [] (Some entry) None None
  end.

(** The entry that [const entry = this[WRITEENTRY]] names, after a call
    of the callback: the callback acts on the parser and on that same
    object, and neither callback assigns [this[WRITEENTRY]], so the
    object is read back from there. *)
Definition entry_after (entry : ReadEntry.t) (p : t) : ReadEntry.t :=
  default entry (WRITEENTRY p).

(** [consumeBodyChunk (chunk, emit)]; [emit] is the callback, which
    acts on the parser, may call out and may throw.  The assignments to
    [entry.remain] and [entry.blockRemain] come after the callback and
    read the counters as it left them. *)
Definition consumeBodyChunk (p : t) (chunk : Buffer)
    (emit : Buffer -> t -> t * list event * option exn) : consumed :=
  match WRITEENTRY p with
  | None => no_entry p
  | Some entry =>
      let len := Z.of_nat (length chunk) in
      if (len <? ReadEntry.remain entry)%Z then
        let '(p, ev, x) := emit chunk p in
        let entry := entry_after entry p in
        match x with
        | Some _ => Consumed p ev (Some entry) None x
        | None =>
            let entry :=
              ReadEntry.set_remain (ReadEntry.remain entry - len) entry in
            let entry :=
              ReadEntry.set_blockRemain (ReadEntry.blockRemain entry - len)
                entry in
            Consumed (set_WRITEENTRY (Some entry) p) ev (Some entry)
              None None
        end
      else if (len <? ReadEntry.blockRemain entry)%Z then
        let '(p, ev, x) :=
          if (ReadEntry.remain entry =? 0)%Z then (p, [], None)
          else emit (slice_to chunk (ReadEntry.remain entry)) p in
        let entry := entry_after entry p in
        match x with
        | Some _ => Consumed p ev (Some entry) None x
        | None =>
            let entry := ReadEntry.set_remain 0 entry in
            let entry :=
              ReadEntry.set_blockRemain (ReadEntry.blockRemain entry - len)
                entry in
            Consumed (set_WRITEENTRY (Some entry) p) (ev ++ [EntryEnd])
              (Some entry) None None
        end
      else
        let '(p, ev, x) :=
          emit (slice_to chunk (ReadEntry.remain entry)) p in
        let entry := entry_after entry p in
        match x with
        | Some _ => Consumed p ev (Some entry) None x
        | None =>
            Consumed (set_WRITEENTRY None (set_STATE Begin p))
              (ev ++ [EntryEnd]) (Some entry)
              (Some (slice_from chunk (ReadEntry.blockRemain entry))) None
        end
  end.

(** The callback of [consumeEntryBody],
    [data => this[WRITEENTRY].write(data)]: the call is recorded as
    [EntryWrite data], followed by what the entry hands on. *)
Definition write_entry (data : Buffer) (p : t)
    : t * list event * option exn :=
  match WRITEENTRY p with
  | None => (p, [], Some (TypeError "Cannot read property of null"))
  | Some entry =>
      match Entry_write entry data with
      | Some (entry, out) =>
          (set_WRITEENTRY (Some entry) p, [EntryWrite data; EntryData out],
           None)
      | None => (p, [EntryWrite data], Some EntryError)
      end
  end.

(** [consumeEntryBody (chunk)] *)
Definition consumeEntryBody (p : t) (chunk : Buffer) : consumed :=
  consumeBodyChunk p chunk write_entry.

(** The callback of [consumeMeta], [data => this[META] += data]. *)
Definition append_meta (data : Buffer) (p : t)
    : t * list event * option exn :=
  (set_META (META p +:+ toString data) p, [], None).

(** [consumeMeta (chunk)]: the callback is [data => this[META] += data]. *)
Definition consumeMeta (p : t) (chunk : Buffer) : consumed :=
  let entry := WRITEENTRY p in
  let r := consumeBodyChunk p chunk append_meta in
  match c_exn r, WRITEENTRY (c_parser r), entry with
  | None, None, Some entry =>
      let p := c_parser r in
      let ty := ReadEntry.type entry in
      let fin (p : t) (x : option exn) :=
        Consumed p (c_events r ++ [MetaEvent (META p)]) (c_entry r)
          (c_ret r) x in
      if decide (ty = "ExtendedHeader" \/ ty = "OldExtendedHeader") then
        fin (set_EX (Some (Pax_parse (META p) (EX p) false)) p) None
      else if decide (ty = "GlobalExtendedHeader") then
        fin (set_GEX (Some (Pax_parse (META p) (GEX p) true)) p) None
      else if decide (ty = "NextFileHasLongPath" \/ ty = "OldGnuLongPath")
      then
        fin (set_EX (Some (<["path" := META p]> (default ∅ (EX p)))) p)
          None
      else if decide (ty = "NextFileHasLongLinkpath") then
        fin (set_EX (Some (<["linkpath" := META p]> (default ∅ (EX p)))) p)
          None
      else
        fin p (Some (Error ("unknown meta: " +:+ ty)))
  | _, _, _ => r
  end.

(** One turn of the [while] loop of [CONSUMECHUNK]: the [switch] on
    [this[STATE]].  In 'begin' the header is [chunk.slice(0, 512)] and
    the rest [chunk.slice(512)]. *)
Definition step (p : t) (chunk : Buffer) : consumed :=
  match STATE p with
  | Begin =>
      let '(p', ev, x) := consumeHeader p (take 512 chunk) in
      Consumed p' ev None (Some (drop 512 chunk)) x
  | Ignore => consumeIgnoreBody p chunk
  | Body => consumeEntryBody p chunk
  | Meta => consumeMeta p chunk
  end.

(** How a call ends. *)
Inductive completion := Normal | Threw (x : exn) | OutOfFuel.

Record looped := Looped {
  l_parser : t;
  l_events : list event;
  l_chunk : option Buffer;
  l_end : completion
}.

(** [while (chunk && chunk.length >= 512) { switch ... }] *)
Fixpoint consumeLoop (fuel : nat) (p : t) (chunk : option Buffer)
    : looped :=
  match chunk with
  | None => Looped p [] None Normal
  | Some c =>
      if 512 <=? length c then
        match fuel with
        | 0 => Looped p [] chunk OutOfFuel
        | S fuel =>
            let r := step p c in
            match c_exn r with
            | Some x =>
                Looped (c_parser r) (c_events r) (c_ret r) (Threw x)
            | None =>
                let l := consumeLoop fuel (c_parser r) (c_ret r) in
                Looped (l_parser l) (c_events r ++ l_events l)
                  (l_chunk l) (l_end l)
            end
        end
      else Looped p [] chunk Normal
  end.

(** A turn of the loop either shortens the chunk or leaves a state
    other than 'begin' for 'begin', so this bounds the number of
    turns. *)
Definition turns (p : t) (chunk : option Buffer) : nat :=
  match chunk with
  | None => 0
  | Some c => 2 * length c + (if STATE p is Begin then 0 else 1)
  end.

Definition fuel_for (chunk : option Buffer) : nat :=
  match chunk with
  | None => 1
  | Some c => 2 * length c + 2
  end.

(** The loop, run to its end. *)
Definition loop (p : t) (chunk : option Buffer) : looped :=
  consumeLoop (fuel_for chunk) p chunk.

(** [[CONSUMECHUNK] (chunk)] *)
Definition CONSUMECHUNK (p : t) (chunk : option Buffer)
    : t * list event * completion :=
  let '(p, chunk) :=
    match chunk, BUFFER p with
    | Some c, Some b => (set_BUFFER None p, Some (b ++ c))
    | _, _ => (p, chunk)
    end in
  let l := loop p chunk in
  match l_end l with
  | Normal =>
      match l_chunk l with
      | Some ((_ :: _) as c) =>
          (set_BUFFER (Some c) (l_parser l), l_events l, Normal)
      | _ =>
          (l_parser l,
           l_events l ++ (if ENDED (l_parser l) then [End] else []),
           Normal)
      end
  | x => (l_parser l, l_events l, x)
  end.

Definition gzipHeader : Buffer := [x1f; x8b].

(** The [for] loop of [write]: true when some [chunk[i]] differs from
    [gzipHeader[i]], which sets [this[UNZIP] = false]. *)
Fixpoint differs (chunk : Buffer) (i : nat) (hdr : Buffer) : bool :=
  match hdr with
  | [] => false
  | h :: hdr =>
      match chunk !! i with
      | Some b => if Byte.eqb b h then differs chunk (S i) hdr else true
      | None => true
      end
  end.

(** The ['data'] handler of the inflator: each inflated chunk goes to
    [CONSUMECHUNK]. *)
Fixpoint consumeAll (p : t) (chunks : list Buffer)
    : t * list event * completion :=
  match chunks with
  | [] => (p, [], Normal)
  | c :: chunks =>
      let '(p, ev, x) := CONSUMECHUNK p (Some c) in
      match x with
      | Normal =>
          let '(p', ev', x') := consumeAll p chunks in
          (p', ev ++ ev', x')
      | _ => (p, ev, x)
      end
  end.

(** [write (chunk)].  The boolean the method returns (back-pressure,
    read off [this[QUEUE].length]) is not part of the model. *)
Definition write (p : t) (chunk : option Buffer)
    : t * list event * completion :=
  let '(p, chunk, returned) :=
    match UNZIP p, chunk with
    | UnzipNull, Some c =>
        let '(p, c) :=
          match BUFFER p with
          | Some b => (set_BUFFER None p, b ++ c)
          | None => (p, c)
          end in
        if length c <? length gzipHeader then
          (set_BUFFER (Some c) p, Some c, true)
        else if differs c 0 gzipHeader then
          (set_UNZIP UnzipFalse p, Some c, false)
        else
          (set_UNZIP (UnzipStream Unzip_new) p, Some c, false)
    | _, _ => (p, chunk, false)
    end in
  if returned then (p, [], Normal)
  else
    match UNZIP p with
    | UnzipStream z =>
        let '(z, out) :=
          if ENDED p then Unzip_end z chunk else Unzip_write z chunk in
        consumeAll (set_UNZIP (UnzipStream z) p) out
    | _ => CONSUMECHUNK p chunk
    end.

(** The events of a body: the calls on the entry, the bytes it hands on
    and its end. *)
Definition of_body (x : event) : Prop :=
  match x with
  | EntryWrite _ | EntryData _ | EntryEnd => True
  | _ => False
  end.

(** Reading a trace for the lifetime of the per-entry overrides:
    [cleared] holds from an entry whose header was consumed until the
    next meta body is complete.  Every entry met while it holds must
    have been made without per-entry overrides. *)
Definition cleared_by (cleared : bool) (e : event) : bool :=
  match e with
  | Entry _ | IgnoredEntry _ => true
  | MetaEvent _ => false
  | _ => cleared
  end.

Definition cleared_after (cleared : bool) (ev : list event) : bool :=
  fold_left cleared_by ev cleared.

Definition made_without_overrides (e : ReadEntry.t) : Prop :=
  exists h gex i, e = ReadEntry.set_ignore i (Entry_new h None gex).

Fixpoint overrides_used_once (cleared : bool) (ev : list event) : Prop :=
  match ev with
  | [] => True
  | e :: ev =>
      match e with
      | Entry x | IgnoredEntry x =>
          cleared = true -> made_without_overrides x
      | _ => True
      end
      /\ overrides_used_once (cleared_by cleared e) ev
  end.

(** The invariant behind it: when [cleared] holds of the parser [p]
    its per-entry overrides are unset, the events [ev] respect the
    reading above, and so does the parser [p'] they lead to. *)
Definition carries (cleared : bool) (p : t) (ev : list event) (p' : t)
    : Prop :=
  (cleared = true -> EX p = None) ->
  overrides_used_once cleared ev
  /\ (cleared_after cleared ev = true -> EX p' = None).

(** *** What a consumer sees of a run

    The entries in the order they were queued, each with the bytes it
    has handed on ([bodies_from] keeps the latest entry first). *)
Definition record (acc : list (ReadEntry.t * Buffer)) (e : event)
    : list (ReadEntry.t * Buffer) :=
  match e with
  | Entry x => (x, []) :: acc
  | EntryData d =>
      match acc with
      | (x, b) :: acc => (x, b ++ d) :: acc
      | [] => []
      end
  | _ => acc
  end.

Definition bodies_from (acc : list (ReadEntry.t * Buffer))
    (ev : list event) : list (ReadEntry.t * Buffer) :=
  fold_left record ev acc.

Definition bodies (ev : list event) : list (ReadEntry.t * Buffer) :=
  rev (bodies_from [] ev).

(** The bytes waiting in [this[BUFFER]]. *)
Definition pending (p : t) : Buffer := default [] (BUFFER p).

(** [end (chunk)] *)
Definition end_ (p : t) (chunk : option Buffer)
    : t * list event * completion :=
  write (set_ENDED true p) chunk.

(** A sequence of [write] calls, up to the first one that throws. *)
Fixpoint writes (p : t) (chunks : list Buffer)
    : t * list event * completion :=
  match chunks with
  | [] => (p, [], Normal)
  | c :: chunks =>
      let '(p, ev, x) := write p (Some c) in
      match x with
      | Normal =>
          let '(p', ev', x') := writes p chunks in
          (p', ev ++ ev', x')
      | _ => (p, ev, x)
      end
  end.

End WithCollaborators.

Arguments t : clear implicits.
Arguments consumed : clear implicits.
Arguments looped : clear implicits.
End Parser.

(** ** Node's [path] module (POSIX flavour)

    [lib/unpack.js] calls [path.join] and [path.dirname] of the Node
    runtime; they are transcribed here from the runtime's documented
    algorithm ([normalizeString] works segment by segment). *)

Module path.

Definition slash : ascii := "/"%char.

(** [s.split('/')] *)
Fixpoint split (s : string) : list string :=
  match s with
  | EmptyString => [EmptyString]
  | String c s =>
      if Ascii.eqb c slash then EmptyString :: split s
      else
        match split s with
        | x :: r => String c x :: r
        | [] => [String c EmptyString]
        end
  end.

(** [l.join('/')] *)
Fixpoint join_slash (l : list string) : string :=
  match l with
  | [] => EmptyString
  | [x] => x
  | x :: r => x +:+ "/" +:+ join_slash r
  end.

Definition isAbsolute (s : string) : bool :=
  match s with
  | String c _ => Ascii.eqb c slash
  | EmptyString => false
  end.

Fixpoint trailingSeparator (s : string) : bool :=
  match s with
  | EmptyString => false
  | String c EmptyString => Ascii.eqb c slash
  | String _ s => trailingSeparator s
  end.

(** One segment of [normalizeString]; [res] is the result so far, last
    segment first.  An empty segment and ['.'] are skipped; ['..'] removes
    the last segment unless there is none or it is ['..'] itself, in
    which case ['..'] is kept only when [allowAboveRoot]. *)
Definition normalizeSegment (allowAboveRoot : bool) (res : list string)
    (seg : string) : list string :=
  if String.eqb seg "" || String.eqb seg "." then res
  else if String.eqb seg ".." then
    match res with
    | top :: below =>
        if String.eqb top ".." then
          if allowAboveRoot then ".." :: res else res
        else below
    | [] => if allowAboveRoot then [".."] else []
    end
  else seg :: res.

Definition normalizeString (p : string) (allowAboveRoot : bool)
    : list string :=
  rev (fold_left (normalizeSegment allowAboveRoot) (split p) []).

(** [path.normalize (p)] *)
Definition normalize (p : string) : string :=
  if String.eqb p "" then "."
  else
    let segs := normalizeString p (negb (isAbsolute p)) in
    match segs with
    | [] =>
        if isAbsolute p then "/"
        else if trailingSeparator p then "./" else "."
    | _ =>
        (if isAbsolute p then "/" else "")
          +:+ join_slash segs
          +:+ (if trailingSeparator p then "/" else "")
    end.

(** [path.join (...args)]: the non-empty arguments joined by ['/'],
    normalized; ['.'] when there is none. *)
Definition join (args : list string) : string :=
  match List.filter (fun a => negb (String.eqb a "")) args with
  | [] => "."
  | joined => normalize (join_slash joined)
  end.

(** The backwards scan of [path.dirname]: [rs] holds the characters at
    indices [i], [i-1], ..., [1]. *)
Fixpoint dirname_scan (i : nat) (rs : list ascii) (matchedSlash : bool)
    : option nat :=
  match rs with
  | [] => None
  | c :: rs =>
      if Ascii.eqb c slash then
        if matchedSlash then dirname_scan (i - 1) rs true else Some i
      else dirname_scan (i - 1) rs false
  end.

(** [path.dirname (p)] *)
Definition dirname (p : string) : string :=
  if String.eqb p "" then "."
  else
    let cs := list_ascii_of_string p in
    match dirname_scan (length cs - 1) (rev (tail cs)) true with
    | None => if isAbsolute p then "/" else "."
    | Some e =>
        if isAbsolute p && (e =? 1) then "//" else substring 0 e p
    end.

(** A name without a separator, and a name that [normalizeString] keeps
    as it is: not empty, not ['.'] and not ['..']. *)
Fixpoint noslash (s : string) : bool :=
  match s with
  | EmptyString => true
  | String c s => negb (Ascii.eqb c slash) && noslash s
  end.

Definition plain (seg : string) : bool :=
  noslash seg && negb (String.eqb seg "") && negb (String.eqb seg ".")
    && negb (String.eqb seg "..").

(** The shape of what [normalizeString] builds, last segment first:
    plain names on top of as many ['..'] as [allowAboveRoot] lets
    through. *)
Definition normal (allowAboveRoot : bool) (res : list string) : Prop :=
  exists k cl,
    res = cl ++ repeat ".." k
    /\ Forall (fun x => plain x = true) cl
    /\ (allowAboveRoot = false -> k = 0).

(** The directories a path names, after normalization. *)
Definition segments (p : string) : list string :=
  normalizeString p (negb (isAbsolute p)).

(** [target] lies in the directory [dir] (or is [dir] itself): both are
    absolute or both relative, the segments of [dir] lead to [target],
    and what follows them never steps up. *)
Definition inside (dir target : string) : Prop :=
  isAbsolute target = isAbsolute dir /\
  exists rest, segments target = segments dir ++ rest /\ ~ In ".." rest.

End path.

(** ** The extractor ([lib/unpack.js]) *)

Module Unpack.

(** What the extractor does to the file system and to its listeners. *)
Inductive action :=
| mkdirp (dir : string) (mode : N)
| createWriteStream (target : string) (mode : N)
| utimes (target : string) (atime mtime : Z)
| link (linkpath target : string)
| symlink (linkpath target : string)
| unlink (target : string)
| resume
| emit_error (er : string)
| emit_unsupported (e : ReadEntry.t)
| emit_unknown (e : ReadEntry.t).

(** The module-level [madeDirs] table ([true] once made; the arrays of
    waiting callbacks only exist while a [mkdirp] is running), and the
    errors the coming file-system calls will answer with, in call order
    ([None]: success; past the end of the list: success). *)
Record world := World {
  madeDirs : gmap string bool;
  answers : list (option string)
}.

Definition answer (w : world) : option string * world :=
  match answers w with
  | [] => (None, w)
  | a :: rest => (a, World (madeDirs w) rest)
  end.

Record t := mk {
  strip : nat;
  path : string;
  dmode : N
}.

(** [constructor (options)]: [+options.strip || 0], [options.path],
    [options.dmode || (0o777 ^ umask)]. *)
Definition constructor (opt_strip : option nat) (opt_path : string)
    (opt_dmode : option N) (umask : N) : t :=
  {| strip := default 0 opt_strip;
     path := opt_path;
     dmode :=
       match opt_dmode with
       | Some (Npos m) => Npos m
       | _ => N.lxor 511 umask
       end |}.

(** [[FIXPATH] (p)] *)
Definition FIXPATH (u : t) (p : string) : string :=
  let p :=
    if strip u is 0 then p
    else path.join_slash (drop (strip u) (path.split p)) in
  path.join [path u; path.join ["/"; p]].

(** [mkdir (path, mode, cb)]: [k] is the callback, called with the error
    if any. *)
Definition mkdir (dir : string) (mode : N) (w : world)
    (k : option string -> world -> list action * world)
    : list action * world :=
  if decide (madeDirs w !! dir = Some true) then k None w
  else
    let '(er, w) := answer w in
    let w :=
      match er with
      | Some _ => World (delete dir (madeDirs w)) (answers w)
      | None => World (<[dir := true]> (madeDirs w)) (answers w)
      end in
    let '(acts, w) := k er w in
    (mkdirp dir mode :: acts, w).

(** [[MKPARENT] (entry, cb)] *)
Definition MKPARENT (u : t) (entry : ReadEntry.t) (w : world)
    (cb : world -> list action * world) : list action * world :=
  let p := FIXPATH u (ReadEntry.path entry) in
  let dirname := path.dirname p in
  mkdir dirname (dmode u) w
    (fun er w =>
       match er with
       | Some er => ([emit_error er], w)
       | None => cb w
       end).

(** [if (entry.atime && entry.mtime) fs.utimes (target, ...)]: the two
    fields hold a [Date] object or [null]. *)
Definition touch (target : string) (entry : ReadEntry.t) : list action :=
  match ReadEntry.atime entry, ReadEntry.mtime entry with
  | Some a, Some m => [utimes target a m]
  | _, _ => []
  end.

(** [[FILE] (entry)]: the body is piped into a write stream on the
    target; the times are set when the stream closes. *)
Definition FILE (u : t) (entry : ReadEntry.t) (w : world)
    : list action * world :=
  MKPARENT u entry w
    (fun w =>
       let target := FIXPATH u (ReadEntry.path entry) in
       (createWriteStream target (ReadEntry.mode entry)
          :: touch target entry, w)).

(** [[DIRECTORY] (entry)] *)
Definition DIRECTORY (u : t) (entry : ReadEntry.t) (w : world)
    : list action * world :=
  let mode := N.lor (ReadEntry.mode entry) 511 in
  let target := FIXPATH u (ReadEntry.path entry) in
  mkdir target mode w
    (fun er w =>
       match er with
       | Some er => ([emit_error er], w)
       | None => (touch target entry ++ [resume], w)
       end).

Definition UNSUPPORTED (entry : ReadEntry.t) (w : world)
    : list action * world :=
  ([emit_unsupported entry; resume], w).

Definition UNKNOWN (entry : ReadEntry.t) (w : world)
    : list action * world :=
  ([emit_unknown entry; resume], w).

(** [[LINK] (entry, linkpath, retry, link)]; [hard] tells [link] from
    [symlink].  On [EEXIST] the target is unlinked and the method runs
    again, whatever [unlink] answered; [fuel] bounds the retries. *)
Fixpoint LINK (fuel : nat) (u : t) (entry : ReadEntry.t) (hard : bool)
    (w : world) : list action * world :=
  let linkpath :=
    if hard then FIXPATH u (ReadEntry.linkpath entry)
    else ReadEntry.linkpath entry in
  let target := FIXPATH u (ReadEntry.path entry) in
  MKPARENT u entry w
    (fun w =>
       let call :=
         if hard then link linkpath target else symlink linkpath target in
       let '(er, w) := answer w in
       match er with
       | Some er =>
           if String.eqb er "EEXIST" then
             let '(er', w) := answer w in
             let report :=
               match er' with Some e => [emit_error e] | None => [] end in
             match fuel with
             | 0 => (call :: unlink target :: report, w)
             | S fuel =>
                 let '(acts, w) := LINK fuel u entry hard w in
                 (call :: unlink target :: report ++ acts, w)
             end
           else ([call; emit_error er], w)
       | None => ([call; resume], w)
       end).

(** [[ONENTRY] (entry)] *)
Definition ONENTRY (u : t) (entry : ReadEntry.t) (w : world)
    : list action * world :=
  let ty := ReadEntry.type entry in
  if decide (ty = "File" \/ ty = "OldFile" \/ ty = "ContiguousFile") then
    FILE u entry w
  else if decide (ty = "Link") then
    LINK (length (answers w)) u entry true w
  else if decide (ty = "SymbolicLink") then
    LINK (length (answers w)) u entry false w
  else if decide (ty = "Directory" \/ ty = "GNUDumpDir") then
    DIRECTORY u entry w
  else if decide (ty = "CharacterDevice" \/ ty = "BlockDevice"
                  \/ ty = "FIFO") then
    UNSUPPORTED entry w
  else UNKNOWN entry w.

Definition creates_file (acts : list action) : bool :=
  existsb (fun a => if a is createWriteStream _ _ then true else false) acts.

(** The extractor has no warning channel of its own: the only signals it
    raises are ['error'], ['unsupported'] and ['unknown']. *)
Definition signals (acts : list action) : bool :=
  existsb
    (fun a =>
       match a with
       | emit_error _ | emit_unsupported _ | emit_unknown _ => true
       | _ => false
       end) acts.

(** The specification's account of an entry whose path holds ['..']: no
    file is created for it and a warning is issued. *)
Definition skipped_with_warning (acts : list action) : Prop :=
  creates_file acts = false /\ signals acts = true.

End Unpack.

(** ** The archive writer ([lib/write-entry.js])

    The sources hold two revisions of the file.  They agree on the
    hard-link cache and on the read loop; the later one adds the stat
    cache and the ['stat'] event and computes the padded length with
    [Math.ceil], the earlier one with [Math.floor (1 + size / 512)]. *)

Module WriteEntry.

Inductive revision := Later | Earlier.

(** The [fs.Stats] fields the writer reads. *)
Record Stats := mkStats {
  isFile : bool;
  isDirectory : bool;
  isSymbolicLink : bool;
  isBlockDevice : bool;
  isFIFO : bool;
  isCharacterDevice : bool;
  mode : N;
  uid : N;
  gid : N;
  size : Z;
  mtime : Z;
  atime : Z;
  ctime : Z;
  dev : N;
  ino : N;
  nlink : N
}.

Definition set_size (n : Z) (s : Stats) : Stats :=
  mkStats (isFile s) (isDirectory s) (isSymbolicLink s) (isBlockDevice s)
    (isFIFO s) (isCharacterDevice s) (mode s) (uid s) (gid s) n (mtime s)
    (atime s) (ctime s) (dev s) (ino s) (nlink s).

Definition getType (stat : Stats) : string :=
  if isFile stat then "File"
  else if isDirectory stat then "Directory"
  else if isSymbolicLink stat then "SymbolicLink"
  else if isBlockDevice stat then "BlockDevice"
  else if isFIFO stat then "FIFO"
  else if isCharacterDevice stat then "CharacterDevice"
  else "Unknown".

(** The object handed to [new Header (...)]. *)
Record fields := mkFields {
  f_path : string;
  f_linkpath : option string;
  f_mode : N;
  f_uid : N;
  f_gid : N;
  f_size : Z;
  f_mtime : Z;
  f_type : string;
  f_uname : string;
  f_atime : Z;
  f_ctime : Z
}.

(** What the entry produces: the chunks it writes, its end, the events
    it emits and the descriptors it closes. *)
Inductive output :=
| emit_stat (s : Stats)
| write_pax (f : fields) (s : Stats)
| write_header (f : fields)
| write (data : Buffer)
| end_
| close (fd : nat)
| emit_error (er : string).

(** How the callbacks of one entry end: normally, or with a value thrown
    out of a callback of the file system. *)
Inductive completion := Returned | Thrown (v : string) | OutOfFuel.

(** The file system as the entry sees it: each call answers with an
    error or a result; [read fd pos len] answers with the bytes read at
    [pos], at most [len] of them. *)
Record fs := mkFs {
  lstat : string -> string + Stats;
  readlink : string -> string + string;
  open : string -> string + nat;
  read : nat -> Z -> nat -> string + Buffer
}.

(** The two caches shared by the entries of one archive. *)
Record caches := Caches {
  linkCache : gmap string string;
  statCache : gmap string Stats
}.

(** The decimal text of a number, as string concatenation prints it. *)
Definition decimal (n : N) : string :=
  NilEmpty.string_of_uint (N.to_uint n).

(** [this.stat.dev + ':' + this.stat.ino] *)
Definition linkKey (stat : Stats) : string :=
  decimal (dev stat) +:+ ":" +:+ decimal (ino stat).

Definition maxReadSize : Z := 1024 * 1024.

Section WithCollaborators.

(** [header.needPax] of [lib/header.js], [process.env.USER || ''] and
    the file system. *)
Variable needPax : fields -> bool.
Variable USER : string.
Variable FS : fs.
Variable rev : revision.

Record t := mk {
  path : string;
  stat : Stats;
  type : string;
  linkpath : option string
}.

Definition result : Type := list output * completion * caches.

(** [[HEADER] ()] *)
Definition HEADER (e : t) : list output :=
  let f :=
    {| f_path := path e;
       f_linkpath := linkpath e;
       f_mode := mode (stat e);
       f_uid := uid (stat e);
       f_gid := gid (stat e);
       f_size := size (stat e);
       f_mtime := mtime (stat e);
       f_type := type e;
       f_uname := USER;
       f_atime := atime (stat e);
       f_ctime := ctime (stat e) |} in
  (if needPax f then [write_pax f (stat e)] else []) ++ [write_header f].

(** [[DIRECTORY] ()] *)
Definition DIRECTORY (e : t) (c : caches) : result :=
  (HEADER e ++ [end_], Returned, c).

(** [[SYMLINK] ()] with [[ONREADLINK] (linkpath)] *)
Definition SYMLINK (e : t) (c : caches) : result :=
  match readlink FS (path e) with
  | inl er => ([emit_error er], Returned, c)
  | inr l =>
      let e := mk (path e) (stat e) (type e) (Some l) in
      (HEADER e ++ [end_], Returned, c)
  end.

(** [[HARDLINK] (linkpath)].  [this.stat] is the object the stat cache
    holds for the path, so its [size] is zeroed there as well. *)
Definition HARDLINK (e : t) (l : string) (c : caches) : result :=
  let st := set_size 0 (stat e) in
  let e := mk (path e) st "Link" (Some l) in
  let c :=
    match rev with
    | Later => Caches (linkCache c) (<[path e := st]> (statCache c))
    | Earlier => c
    end in
  (HEADER e ++ [end_], Returned, c).

(** The zero-filling [for] loop of the read callback; [n] bounds its
    turns by the length of [buf]. *)
Fixpoint zerofill (n i : nat) (buf : Buffer) (bytesRead remain : Z)
    (blockRemain : Z) : Buffer * Z * Z :=
  match n with
  | 0 => (buf, bytesRead, remain)
  | S n =>
      if (i <? length buf) && (bytesRead <? blockRemain)%Z then
        zerofill n (S i) (<[i := x00]> buf) (bytesRead + 1)%Z
          (remain + 1)%Z blockRemain
      else (buf, bytesRead, remain)
  end.

(** [[READ] (fd, buf, pos, remain, blockRemain)] with its callback
    ([[ONREAD]] in the later revision).  A read of zero bytes throws
    the string ['wat'] out of the callback.  [write chunk] records the
    bytes handed to [this.write] as they are at the call; every read
    fills the same [buf]. *)
Fixpoint READ (fuel : nat) (fd : nat) (buf : Buffer)
    (pos remain blockRemain : Z) : list output * completion :=
  match fuel with
  | 0 => ([], OutOfFuel)
  | S fuel =>
      match read FS fd pos (length buf) with
      | inl er => ([close fd; emit_error er], Returned)
      | inr data =>
          let buf := take (length buf) (data ++ drop (length data) buf) in
          let bytesRead := Z.of_nat (length data) in
          if (bytesRead =? 0)%Z then ([], Thrown "wat")
          else
            let '(buf, bytesRead, remain) :=
              if (bytesRead =? remain)%Z then
                zerofill (length buf) (Z.to_nat bytesRead) buf bytesRead
                  remain blockRemain
              else (buf, bytesRead, remain) in
            let chunk :=
              if (bytesRead =? Z.of_nat (length buf))%Z then buf
              else take (Z.to_nat bytesRead) buf in
            let remain := (remain - bytesRead)%Z in
            let blockRemain := (blockRemain - bytesRead)%Z in
            let pos := (pos + bytesRead)%Z in
            if (remain =? 0)%Z then
              (write chunk
                 :: (if (blockRemain =? 0)%Z then []
                     else [write (repeat x00 (Z.to_nat blockRemain))])
                 ++ [end_; close fd],
               Returned)
            else
              let '(out, x) := READ fuel fd buf pos remain blockRemain in
              (write chunk :: out, x)
      end
  end.

(** [512 * Math.ceil (size / 512)], and in the earlier revision
    [512 * Math.floor (1 + size / 512)]. *)
Definition blockLen (sz : Z) : Z :=
  match rev with
  | Later => (512 * - (- sz / 512))%Z
  | Earlier => (512 * (1 + sz / 512))%Z
  end.

(** [[OPENFILE] ()] with [[ONOPENFILE] (fd)].  The contents of
    [Buffer.allocUnsafe (bufLen)] are never read before being
    written. *)
Definition OPENFILE (fuel : nat) (e : t) : list output * completion :=
  match open FS (path e) with
  | inl er => ([emit_error er], Returned)
  | inr fd =>
      let blockLen := blockLen (size (stat e)) in
      let bufLen := Z.min blockLen maxReadSize in
      let buf := repeat x00 (Z.to_nat bufLen) in
      READ fuel fd buf 0 (size (stat e)) blockLen
  end.

(** [[FILE] ()] *)
Definition FILE (fuel : nat) (e : t) (c : caches) : result :=
  let go (c : caches) : result :=
    if (size (stat e) =? 0)%Z then (HEADER e ++ [end_], Returned, c)
    else
      let '(out, x) := OPENFILE fuel e in
      (HEADER e ++ out, x, c) in
  if (1 <? nlink (stat e))%N then
    let linkKey := linkKey (stat e) in
    match linkCache c !! linkKey with
    | Some cached => HARDLINK e cached c
    | None => go (Caches (<[linkKey := path e]> (linkCache c)) (statCache c))
    end
  else go c.

(** [[PROCESS] ()] *)
Definition PROCESS (fuel : nat) (e : t) (c : caches) : result :=
  if String.eqb (type e) "File" then FILE fuel e c
  else if String.eqb (type e) "Directory" then DIRECTORY e c
  else if String.eqb (type e) "SymbolicLink" then SYMLINK e c
  else ([end_], Returned, c).

(** [[ONLSTAT] (stat)]; in the earlier revision, the body of the
    [lstat] callback. *)
Definition ONLSTAT (fuel : nat) (p : string) (st : Stats) (c : caches)
    : result :=
  let e := mk p st (getType st) None in
  match rev with
  | Later =>
      let c := Caches (linkCache c) (<[p := st]> (statCache c)) in
      let '(out, x, c) := PROCESS fuel e c in
      (emit_stat st :: out, x, c)
  | Earlier => PROCESS fuel e c
  end.

(** [[LSTAT] ()] *)
Definition LSTAT (fuel : nat) (p : string) (c : caches) : result :=
  match lstat FS p with
  | inl er => ([emit_error er], Returned, c)
  | inr st => ONLSTAT fuel p st c
  end.

(** [new WriteEntry (path, linkCache, statCache)] and everything its
    callbacks do. *)
Definition constructor (fuel : nat) (p : string) (c : caches) : result :=
  match rev with
  | Later =>
      match statCache c !! p with
      | Some st => ONLSTAT fuel p st c
      | None => LSTAT fuel p c
      end
  | Earlier => LSTAT fuel p c
  end.

(** The entries of an archive, created one after the other on the same
    caches. *)
Fixpoint create (fuel : nat) (paths : list string) (c : caches)
    : list (list output * completion) * caches :=
  match paths with
  | [] => ([], c)
  | p :: paths =>
      let '(out, x, c) := constructor fuel p c in
      let '(rest, c) := create fuel paths c in
      ((out, x) :: rest, c)
  end.

End WithCollaborators.

(** How an entry was encoded: the header it wrote, and whether anything
    was written after it. *)
Definition header_of (out : list output) : option fields :=
  head (omap (fun o => if o is write_header f then Some f else None) out).

Definition body_of (out : list output) : list Buffer :=
  omap (fun o => if o is write d then Some d else None) out.

(** A file with the device and inode numbers [d] and [i] and more than
    one link. *)
Definition shares (d i : N) (st : Stats) : Prop :=
  isFile st = true /\ dev st = d /\ ino st = i /\ (1 < nlink st)%N.

(** The specification's account of [[FILE]] for a file with more than one
    link: a hard link to the cached path when the cache holds the key
    and the cached path differs from the entry's; otherwise the path is
    recorded under the key and the entry is encoded as a file. *)
Definition FILE_as_specified (needPax : fields -> bool) (USER : string)
    (FS : fs) (rev : revision) (fuel : nat) (e : t) (c : caches) : Prop :=
  (1 < nlink (stat e))%N ->
  let '(out, _, c') := FILE needPax USER FS rev fuel e c in
  exists f, header_of out = Some f
    /\ match linkCache c !! linkKey (stat e) with
       | Some cached =>
           if decide (cached = path e) then
             f_type f = "File" /\ f_size f = size (stat e)
             /\ linkCache c' !! linkKey (stat e) = Some (path e)
           else
             f_type f = "Link" /\ f_linkpath f = Some cached
             /\ f_size f = 0%Z
       | None =>
           f_type f = "File" /\ f_size f = size (stat e)
           /\ linkCache c' !! linkKey (stat e) = Some (path e)
       end.

End WriteEntry.

(** ** The collaborators the sources do not include

    [lib/header.js], [lib/read-entry.js] and [lib/pax.js] are required by
    the parser but are not among the sources.  The properties of the
    parser below hold for every implementation of them; the definitions of
    this module serve to run the parser on actual archives. *)

Module Collaborators.

Local Open Scope N_scope.

(** The bytes of a field: [size] bytes from [offset]. *)
Definition field (block : Buffer) (offset size : nat) : Buffer :=
  take size (drop offset block).

(** Modelled from the spec: the string reader of the field codec of
    [lib/header.js] (section 4.1): the characters up to the first NUL or
    the end of the field. *)
Fixpoint read_string (b : Buffer) : string :=
  match b with
  | [] => EmptyString
  | c :: b =>
      if Byte.eqb c x00 then EmptyString
      else String (ascii_of_byte c) (read_string b)
  end.

Definition octal_digit (c : byte) : option N :=
  let n := Byte.to_N c in
  if (48 <=? n) && (n <=? 55) then Some (n - 48) else None.

(** Modelled from the spec: the octal reader of the field codec of
    [lib/header.js] (section 4.1): the leading octal digits, up to the
    first NUL, space or other byte. *)
Fixpoint read_octal (acc : N) (b : Buffer) : N :=
  match b with
  | [] => acc
  | c :: b =>
      match octal_digit c with
      | Some d => read_octal (8 * acc + d) b
      | None => acc
      end
  end.

Definition read_base256 (b : Buffer) : N :=
  fold_left (fun acc c => 256 * acc + Byte.to_N c) b 0.

(** Modelled from the spec: a number field of [lib/header.js]: octal,
    or, when the high bit of the first byte is set, the remaining bytes
    as a big-endian binary number. *)
Definition read_number (b : Buffer) : N :=
  match b with
  | c :: rest =>
      if 128 <=? Byte.to_N c then read_base256 rest else read_octal 0 b
  | [] => 0
  end.

Definition sum_unsigned (b : Buffer) : N :=
  fold_left (fun acc c => acc + Byte.to_N c) b 0.

Definition sum_signed (b : Buffer) : Z :=
  fold_left
    (fun acc c =>
       let n := Z.of_N (Byte.to_N c) in
       (acc + (if (128 <=? n)%Z then n - 256 else n))%Z) b 0%Z.

(** The header block with the checksum field read as eight spaces. *)
Definition blanked (block : Buffer) : Buffer :=
  take 148 block ++ repeat x20 8 ++ drop 156 block.

(** Modelled from the spec: the type table of [lib/types.js]
    (section 6). *)
Definition type_name (key : string) : string :=
  if String.eqb key "0" || String.eqb key "" then "File"
  else if String.eqb key "1" then "Link"
  else if String.eqb key "2" then "SymbolicLink"
  else if String.eqb key "3" then "CharacterDevice"
  else if String.eqb key "4" then "BlockDevice"
  else if String.eqb key "5" then "Directory"
  else if String.eqb key "6" then "FIFO"
  else if String.eqb key "7" then "ContiguousFile"
  else if String.eqb key "g" then "GlobalExtendedHeader"
  else if String.eqb key "x" then "ExtendedHeader"
  else if String.eqb key "D" then "GNUDumpDir"
  else if String.eqb key "K" then "NextFileHasLongLinkpath"
  else if String.eqb key "L" then "NextFileHasLongPath"
  else if String.eqb key "N" then "OldGnuLongPath"
  else if String.eqb key "M" then "OldFile"
  else "Unsupported".

(** Modelled from the spec: [new Header (block)] of [lib/header.js]
    (sections 4.2 and 6): the fields at their offsets, and [cksumValid]
    when the stored checksum is the unsigned or the signed sum of the
    block with the checksum field as spaces. *)
Definition Header_new (block : Buffer) : Header.t :=
  let cksum := read_number (field block 148 8) in
  {| Header.block := block;
     Header.cksumValid :=
       (cksum =? sum_unsigned (blanked block))
       || (Z.of_N cksum =? sum_signed (blanked block))%Z;
     Header.path := read_string (field block 0 100);
     Header.linkpath := read_string (field block 157 100);
     Header.size := N.to_nat (read_number (field block 124 12));
     Header.type := type_name (read_string (field block 156 1)) |}.

Definition is_meta (ty : string) : bool :=
  String.eqb ty "NextFileHasLongLinkpath"
  || String.eqb ty "NextFileHasLongPath"
  || String.eqb ty "OldGnuLongPath"
  || String.eqb ty "GlobalExtendedHeader"
  || String.eqb ty "ExtendedHeader"
  || String.eqb ty "OldExtendedHeader".

Definition override (key : string) (base : string)
    (ex gex : option Pax) : string :=
  match ex ≫= (.!! key), gex ≫= (.!! key) with
  | Some v, _ => v
  | None, Some v => v
  | None, None => base
  end.

(** Modelled from the spec: [new ReadEntry (header, ex, gex)] of
    [lib/read-entry.js] (section 3 and scenario S3): [remain] is the
    size, [blockRemain] the size rounded up to a multiple of 512, [meta]
    marks the Pax and GNU long-name entries, an entry of a type outside
    the table is ignored, and the overrides apply in the order header,
    global, extended. *)
Definition Entry_new (h : Header.t) (ex gex : option Pax) : ReadEntry.t :=
  let ty := Header.type h in
  {| ReadEntry.header := h;
     ReadEntry.extended := ex;
     ReadEntry.globalExtended := gex;
     ReadEntry.type := ty;
     ReadEntry.meta := is_meta ty;
     ReadEntry.ignore := String.eqb ty "Unsupported";
     ReadEntry.path := override "path" (Header.path h) ex gex;
     ReadEntry.linkpath := override "linkpath" (Header.linkpath h) ex gex;
     ReadEntry.mode := read_number (field (Header.block h) 100 8);
     ReadEntry.mtime :=
       Some (Z.of_N (read_number (field (Header.block h) 136 12)));
     ReadEntry.atime := None;
     ReadEntry.size := Header.size h;
     ReadEntry.remain := Z.of_nat (Header.size h);
     ReadEntry.blockRemain :=
       Z.of_nat (512 * ((Header.size h + 511) / 512)) |}.

(** Modelled from the spec: [entry.write (data)] of [lib/read-entry.js]
    (section 3, scenarios S2 and S3, and the cases of
    [test/read-entry.js]): pushing more than [blockRemain] bytes into
    the entry throws; otherwise both counters go down by the length of
    [data], [remain] not below zero, and the entry hands on the first
    [remain] bytes of [data], or nothing when it is ignored. *)
Definition Entry_write (e : ReadEntry.t) (data : Buffer)
    : option (ReadEntry.t * Buffer) :=
  let len := Z.of_nat (length data) in
  if (ReadEntry.blockRemain e <? len)%Z then None
  else
    let e' :=
      ReadEntry.set_blockRemain (ReadEntry.blockRemain e - len)
        (ReadEntry.set_remain (Z.max 0 (ReadEntry.remain e - len)) e) in
    Some (e',
          if ReadEntry.ignore e then []
          else take (Z.to_nat (ReadEntry.remain e)) data).

(** Modelled from the spec: a [Buffer] appended to a string is decoded
    as text; byte by byte, which is what the decoding does to ASCII
    text. *)
Definition toString (b : Buffer) : string :=
  string_of_list_ascii (map ascii_of_byte b).

Definition decimal_digit (c : ascii) : option nat :=
  let n := nat_of_ascii c in
  if ((48 <=? n) && (n <=? 57))%nat then Some (n - 48)%nat else None.

Fixpoint read_decimal (acc digits : nat) (s : string)
    : nat * nat * string :=
  match s with
  | String c s' =>
      match decimal_digit c with
      | Some d => read_decimal (10 * acc + d)%nat (S digits) s'
      | None => (acc, digits, s)
      end
  | EmptyString => (acc, digits, s)
  end.

Fixpoint key_value (s : string) : string * string :=
  match s with
  | EmptyString => (EmptyString, EmptyString)
  | String c s' =>
      if Ascii.eqb c "="%char then (EmptyString, s')
      else let '(k, v) := key_value s' in (String c k, v)
  end.

(** Modelled from the spec: the lines of a Pax body (section 6),
    ["<length> <key>=<value>\n"], where the length counts the whole line;
    a later key replaces an earlier one. *)
Fixpoint parse_lines (fuel : nat) (s : string) (m : Pax) : Pax :=
  match fuel with
  | O => m
  | S fuel =>
      let '(len, digits, rest) := read_decimal 0 0 s in
      if ((digits =? 0) || (len <=? digits + 1))%nat then m
      else
        let line := substring 1 (len - digits - 2) rest in
        let '(k, v) := key_value line in
        parse_lines fuel (substring (len - digits) (String.length rest) rest)
          (<[k := v]> m)
  end.

(** Modelled from the spec: [Pax.parse (body, prior, global)] of
    [lib/pax.js] (section 4.3): the lines merged into the prior
    overrides. *)
Definition Pax_parse (body : string) (prior : option Pax) (g : bool) : Pax :=
  parse_lines (String.length body) body (default ∅ prior).

(** The inflator of [minizlib] is outside the sources; this one holds
    its input back and stands in where only plain input is parsed. *)
Definition Unzip : Type := list Buffer.
Definition Unzip_new : Unzip := [].
Definition Unzip_write (z : Unzip) (chunk : option Buffer)
    : Unzip * list Buffer :=
  (z ++ option_list chunk, []).

Local Close Scope N_scope.

(** *** Writing header blocks, to have archives to parse *)

Fixpoint octal_text (digits : nat) (n : N) : Buffer :=
  match digits with
  | O => []
  | S d =>
      octal_text d (n / 8)
        ++ [default x30 (Byte.of_N (48 + n mod 8))]
  end.

Definition text (s : string) : Buffer :=
  map byte_of_ascii (list_ascii_of_string s).

Definition padded (size : nat) (b : Buffer) : Buffer :=
  take size (b ++ repeat x00 size).

(** A ustar-less (basic) header block for [path], of the given type key
    and size, with its checksum. *)
Definition header_block (p : string) (typeKey : string) (sz : nat)
    : Buffer :=
  let before :=
    padded 100 (text p)
      ++ padded 8 (octal_text 7 420) ++ padded 8 (octal_text 7 0)
      ++ padded 8 (octal_text 7 0)
      ++ padded 12 (octal_text 11 (N.of_nat sz))
      ++ padded 12 (octal_text 11 0) in
  let after := padded 1 (text typeKey) ++ repeat x00 355 in
  let cksum := sum_unsigned (before ++ repeat x20 8 ++ after) in
  before ++ padded 7 (octal_text 6 cksum) ++ [x20] ++ after.

End Collaborators.

(** ** Archives and parsers to run the definitions on *)

Module Examples.

Abbreviation parser := (Parser.t Collaborators.Unzip).

(** [new Parser ()] and [new Parser ({ maxMetaEntrySize: 10 })] *)
Definition fresh : parser := Parser.constructor None None.
Definition small_meta : parser := Parser.constructor (Some 10) None.

(** The header of a file [a] of [n] bytes, and [n] bytes of body. *)
Definition file_header (n : nat) : Buffer :=
  Collaborators.header_block "a" "0" n.
Definition bytes (n : nat) : Buffer := repeat x61 n.

(** The entry the parser makes of [file_header n], and a parser in the
    body state about to receive its body. *)
Definition entry (n : nat) : ReadEntry.t :=
  Collaborators.Entry_new (Collaborators.Header_new (file_header n))
    None None.
Definition in_body (n : nat) : parser :=
  Parser.set_STATE Parser.Body
    (Parser.set_WRITEENTRY (Some (entry n)) fresh).

Definition consumeEntryBody :=
  @Parser.consumeEntryBody Collaborators.Entry_write Collaborators.Unzip.

(** [entry.write] called with each of the chunks in turn: the entry as
    the calls leave it with all it has handed on, or [None] when a call
    throws. *)
Fixpoint pushes (e : ReadEntry.t) (chunks : list Buffer)
    : option (ReadEntry.t * Buffer) :=
  match chunks with
  | [] => Some (e, [])
  | d :: chunks =>
      match Collaborators.Entry_write e d with
      | None => None
      | Some (e, out) =>
          match pushes e chunks with
          | None => None
          | Some (e, rest) => Some (e, out ++ rest)
          end
      end
  end.
Definition write :=
  Parser.write Collaborators.Header_new Collaborators.Entry_new
    Collaborators.Entry_write Collaborators.Pax_parse Collaborators.toString
    Collaborators.Unzip_new Collaborators.Unzip_write
    Collaborators.Unzip_write.
Definition writes :=
  Parser.writes Collaborators.Header_new Collaborators.Entry_new
    Collaborators.Entry_write Collaborators.Pax_parse Collaborators.toString
    Collaborators.Unzip_new Collaborators.Unzip_write
    Collaborators.Unzip_write.

(** A regular file of [sz] bytes with [n] links, on device 1 with inode
    number 2, and a file system where every path names it and a read
    gives the bytes of the file from the position asked for. *)
Definition file_stat (sz : Z) (n : N) : WriteEntry.Stats :=
  WriteEntry.mkStats true false false false false false 420 0 0 sz 0 0 0
    1 2 n.

Definition disk (sz : Z) (n : N) : WriteEntry.fs :=
  {| WriteEntry.lstat := fun _ => inr (file_stat sz n);
     WriteEntry.readlink := fun _ => inl "EINVAL";
     WriteEntry.open := fun _ => inr 3;
     WriteEntry.read := fun _ pos len =>
       inr (take len (drop (Z.to_nat pos) (bytes (Z.to_nat sz)))) |}.

(** The same, but the file has been emptied since it was examined: a
    read gives no bytes. *)
Definition shrunk_disk (sz : Z) (n : N) : WriteEntry.fs :=
  {| WriteEntry.lstat := fun _ => inr (file_stat sz n);
     WriteEntry.readlink := fun _ => inl "EINVAL";
     WriteEntry.open := fun _ => inr 3;
     WriteEntry.read := fun _ _ _ => inr [] |}.

Definition no_caches : WriteEntry.caches := WriteEntry.Caches ∅ ∅.

(** [new Unpack ('/tmp/x')] under the umask 022, the entry of a file
    ['../evil'] of four bytes as the parser makes it, and a file system
    on which every call succeeds and no directory has been made yet. *)
Definition extractor : Unpack.t := Unpack.constructor None "/tmp/x" None 18.

(** [new Unpack ('')]: the constructor takes any string for the path. *)
Definition nowhere : Unpack.t := Unpack.constructor None "" None 18.

Definition evil : ReadEntry.t :=
  Collaborators.Entry_new
    (Collaborators.Header_new (Collaborators.header_block "../evil" "0" 4))
    None None.

Definition untouched : Unpack.world := Unpack.World ∅ [].

(** An archive holding the entry of a file of 800 bytes, cut after 700
    bytes of the body. *)
Definition cut : list Buffer := [file_header 800 ++ bytes 700; bytes 324].

End Examples.
(** * Properties of the parser *)

Arguments Parser.loop : simpl never.

Section ParserProperties.

Context (Header_new : Buffer -> Header.t)
        (Entry_new : Header.t -> option Pax -> option Pax -> ReadEntry.t)
        (Entry_write : ReadEntry.t -> Buffer -> option (ReadEntry.t * Buffer))
        (Pax_parse : string -> option Pax -> bool -> Pax)
        (toString : Buffer -> string)
        {Unzip : Type}
        (Unzip_new : Unzip)
        (Unzip_write Unzip_end : Unzip -> option Buffer -> Unzip * list Buffer).

Set Default Proof Using "Type".

(** Forget the variables a goal does not mention, so that a decision
    procedure does not pick them up. *)
Ltac unused :=
  repeat match goal with
         | H : ?T |- _ =>
             lazymatch type of T with
             | Prop => fail
             | _ => clear H
             end
         end.

Local Abbreviation parser := (Parser.t Unzip).
Local Abbreviation consumeHeader := (Parser.consumeHeader Header_new Entry_new).
Local Abbreviation consumeMeta := (Parser.consumeMeta Pax_parse toString).
Local Abbreviation step :=
  (Parser.step Header_new Entry_new Entry_write Pax_parse toString).
Local Abbreviation consumeLoop :=
  (Parser.consumeLoop Header_new Entry_new Entry_write Pax_parse toString).
Local Abbreviation loop :=
  (Parser.loop Header_new Entry_new Entry_write Pax_parse toString).
Local Abbreviation CONSUMECHUNK :=
  (Parser.CONSUMECHUNK Header_new Entry_new Entry_write Pax_parse toString).
Local Abbreviation write :=
  (Parser.write Header_new Entry_new Entry_write Pax_parse toString Unzip_new
     Unzip_write Unzip_end).
Local Abbreviation writes :=
  (Parser.writes Header_new Entry_new Entry_write Pax_parse toString Unzip_new
     Unzip_write Unzip_end).

Implicit Types (p : parser) (c : Buffer) (chunk : option Buffer) (e : ReadEntry.t).

(** *** The loop of [CONSUMECHUNK] terminates *)

Lemma length_slice_from c (n : Z) : length (slice_from c n) <= length c.
Proof. unfold slice_from. rewrite length_drop. lia. Qed.

Lemma consumeIgnoreBody_ret p c r :
  Parser.c_ret (Parser.consumeIgnoreBody p c) = Some r ->
  Parser.STATE (Parser.c_parser (Parser.consumeIgnoreBody p c)) = Parser.Begin
  /\ length r <= length c.
Proof.
  unfold Parser.consumeIgnoreBody.
  destruct (Parser.WRITEENTRY p) as [e|]; [|discriminate].
  cbv zeta. destruct (_ <=? _)%Z; [|discriminate].
  cbn. intros [= <-]. split; [reflexivity|apply length_slice_from].
Qed.

Lemma consumeBodyChunk_ret p c emit r :
  Parser.c_ret (Parser.consumeBodyChunk p c emit) = Some r ->
  Parser.STATE (Parser.c_parser (Parser.consumeBodyChunk p c emit))
    = Parser.Begin
  /\ Parser.WRITEENTRY (Parser.c_parser (Parser.consumeBodyChunk p c emit))
    = None
  /\ length r <= length c.
Proof.
  unfold Parser.consumeBodyChunk.
  destruct (Parser.WRITEENTRY p) as [e|]; [|discriminate].
  cbv zeta. destruct (_ <? ReadEntry.remain e)%Z.
  { destruct (emit c p) as [[q ev] [x|]]; discriminate. }
  destruct (_ <? ReadEntry.blockRemain e)%Z.
  { destruct (if (ReadEntry.remain e =? 0)%Z then _ else _)
      as [[q ev] [x|]]; discriminate. }
  destruct (emit _ p) as [[q ev] [x|]]; [discriminate|].
  cbn. intros [= <-]. repeat split. apply length_slice_from.
Qed.

Lemma consumeMeta_ret p c r :
  Parser.c_ret (consumeMeta p c) = Some r ->
  Parser.STATE (Parser.c_parser (consumeMeta p c)) = Parser.Begin
  /\ length r <= length c.
Proof.
  unfold Parser.consumeMeta.
  pose proof (consumeBodyChunk_ret p c (Parser.append_meta toString)) as Hb.
  set (b := Parser.consumeBodyChunk p c _) in *.
  destruct (Parser.c_exn b) eqn:Ex.
  { intros H. destruct (Hb _ H) as (? & ? & ?). (unused; tauto). }
  destruct (Parser.WRITEENTRY (Parser.c_parser b)) eqn:Ew.
  { intros H. destruct (Hb _ H) as (? & ? & ?). (unused; tauto). }
  destruct (Parser.WRITEENTRY p) eqn:Ep.
  2:{ intros H. destruct (Hb _ H) as (? & ? & ?). (unused; tauto). }
  repeat case_decide; cbn; intros Hr; destruct (Hb _ Hr) as (? & ? & ?);
    split; assumption.
Qed.

Lemma step_turns p c :
  512 <= length c ->
  Parser.c_exn (step p c) = None ->
  Parser.turns (Parser.c_parser (step p c)) (Parser.c_ret (step p c))
    < Parser.turns p (Some c).
Proof.
  intros Hlen. unfold Parser.step.
  destruct (Parser.STATE p) eqn:Est.
  - destruct (consumeHeader p (take 512 c)) as [[p' ev] x]. cbn.
    intros _. rewrite Est, length_drop.
    destruct (Parser.STATE p'); lia.
  - unfold Parser.consumeEntryBody.
    intros _. destruct (Parser.c_ret _) as [r|] eqn:Er; cbn; [|rewrite Est; lia].
    apply consumeBodyChunk_ret in Er as (-> & _ & ?). rewrite Est. lia.
  - intros _. destruct (Parser.c_ret _) as [r|] eqn:Er; cbn; [|rewrite Est; lia].
    apply consumeMeta_ret in Er as (-> & ?). rewrite Est. lia.
  - intros _. destruct (Parser.c_ret _) as [r|] eqn:Er; cbn; [|rewrite Est; lia].
    apply consumeIgnoreBody_ret in Er as (-> & ?). rewrite Est. lia.
Qed.

Lemma consumeLoop_fuel f1 f2 p chunk :
  Parser.turns p chunk < f1 -> Parser.turns p chunk < f2 ->
  consumeLoop f1 p chunk = consumeLoop f2 p chunk.
Proof.
  revert f2 p chunk.
  induction f1 as [|f1 IH]; intros f2 p chunk H1 H2; [lia|].
  destruct f2 as [|f2]; [lia|].
  destruct chunk as [c|]; [|reflexivity].
  cbn [Parser.consumeLoop].
  destruct (512 <=? length c) eqn:Hlen; [|reflexivity].
  apply Nat.leb_le in Hlen.
  destruct (Parser.c_exn (step p c)) eqn:Ex; [reflexivity|].
  pose proof (step_turns p c Hlen Ex).
  rewrite (IH f2); [reflexivity|lia..].
Qed.

Lemma consumeLoop_total f p chunk :
  Parser.turns p chunk < f ->
  Parser.l_end (consumeLoop f p chunk) <> Parser.OutOfFuel.
Proof.
  revert p chunk.
  induction f as [|f IH]; intros p chunk H; [lia|].
  destruct chunk as [c|]; [|discriminate].
  cbn [Parser.consumeLoop].
  destruct (512 <=? length c) eqn:Hlen; [|discriminate].
  apply Nat.leb_le in Hlen.
  destruct (Parser.c_exn (step p c)) eqn:Ex; [discriminate|].
  pose proof (step_turns p c Hlen Ex). cbn. apply IH. lia.
Qed.

Lemma fuel_for_enough p chunk :
  Parser.turns p chunk < Parser.fuel_for chunk.
Proof.
  destruct chunk as [c|]; cbn; [destruct (Parser.STATE p)|]; lia.
Qed.

(** One turn of the loop, without fuel. *)
Lemma loop_unfold p c :
  loop p (Some c) =
    if 512 <=? length c then
      let r := step p c in
      match Parser.c_exn r with
      | Some x =>
          Parser.Looped (Parser.c_parser r) (Parser.c_events r)
            (Parser.c_ret r) (Parser.Threw x)
      | None =>
          let l := loop (Parser.c_parser r) (Parser.c_ret r) in
          Parser.Looped (Parser.l_parser l)
            (Parser.c_events r ++ Parser.l_events l)
            (Parser.l_chunk l) (Parser.l_end l)
      end
    else Parser.Looped p [] (Some c) Parser.Normal.
Proof.
  unfold Parser.loop. cbn [Parser.fuel_for].
  replace (2 * length c + 2) with (S (2 * length c + 1)) by lia.
  cbn [Parser.consumeLoop].
  destruct (512 <=? length c) eqn:Hlen; [|reflexivity].
  apply Nat.leb_le in Hlen. cbv zeta.
  destruct (Parser.c_exn (step p c)) eqn:Ex; [reflexivity|].
  pose proof (step_turns p c Hlen Ex) as Ht. cbn [Parser.turns] in Ht.
  rewrite (consumeLoop_fuel (2 * length c + 1)
             (Parser.fuel_for (Parser.c_ret (step p c)))).
  - reflexivity.
  - destruct (Parser.STATE p); lia.
  - apply fuel_for_enough.
Qed.

Lemma loop_total p chunk : Parser.l_end (loop p chunk) <> Parser.OutOfFuel.
Proof. apply consumeLoop_total, fuel_for_enough. Qed.

(** *** Invalid headers *)

Lemma consumeHeader_invalid p c :
  Header.cksumValid (Header_new c) = false ->
  consumeHeader p c = (p, [Parser.InvalidHeader (Header_new c)], None).
Proof. intros H. unfold Parser.consumeHeader. rewrite H. reflexivity. Qed.

Lemma loop_invalid_block p b rest :
  Parser.STATE p = Parser.Begin ->
  length b = 512 ->
  Header.cksumValid (Header_new b) = false ->
  loop p (Some (b ++ rest)) =
    let l := loop p (Some rest) in
    Parser.Looped (Parser.l_parser l)
      (Parser.InvalidHeader (Header_new b) :: Parser.l_events l)
      (Parser.l_chunk l) (Parser.l_end l).
Proof.
  intros Hst Hlen Hck. rewrite loop_unfold.
  destruct (512 <=? length (b ++ rest)) eqn:E.
  2:{ apply Nat.leb_gt in E. rewrite length_app in E. lia. }
  unfold Parser.step. rewrite Hst.
  rewrite take_app_length' by (symmetry; assumption).
  rewrite drop_app_length' by (symmetry; assumption).
  rewrite consumeHeader_invalid by assumption. reflexivity.
Qed.

Lemma loop_invalid_blocks p blocks rest :
  Parser.STATE p = Parser.Begin ->
  Forall (fun b => length b = 512
                   /\ Header.cksumValid (Header_new b) = false) blocks ->
  loop p (Some (concat blocks ++ rest)) =
    let l := loop p (Some rest) in
    Parser.Looped (Parser.l_parser l)
      (map (fun b => Parser.InvalidHeader (Header_new b)) blocks
         ++ Parser.l_events l)
      (Parser.l_chunk l) (Parser.l_end l).
Proof.
  intros Hst. induction 1 as [|b blocks [Hlen Hck] _ IH]; cbn [concat map].
  - cbn. destruct (loop p (Some rest)); reflexivity.
  - rewrite <- app_assoc, loop_invalid_block by assumption.
    rewrite IH. reflexivity.
Qed.

(** C5.  In the begin state a 512-byte block whose checksum is invalid
    makes the parser emit [invalidHeader] and nothing else: the parser is
    left as it was, in the begin state, and no exception ends the call.
    A chunk that starts with any number of such blocks therefore yields
    one [invalidHeader] per block, followed by exactly what the parser
    does with the rest of the chunk: it advances block by block until
    the chunk ends or a valid header is found. *)
Theorem invalid_header_keeps_parsing p (blocks : list Buffer) (rest : Buffer) :
  Parser.STATE p = Parser.Begin ->
  Parser.BUFFER p = None ->
  Forall (fun b => length b = 512
                   /\ Header.cksumValid (Header_new b) = false) blocks ->
  (forall b, In b blocks ->
     step p (b ++ rest) =
       Parser.Consumed p [Parser.InvalidHeader (Header_new b)] None
         (Some rest) None)
  /\ CONSUMECHUNK p (Some (concat blocks ++ rest)) =
       (let '(p', ev, x) := CONSUMECHUNK p (Some rest) in
        (p', map (fun b => Parser.InvalidHeader (Header_new b)) blocks ++ ev,
         x)).
Proof.
  intros Hst Hbuf Hall. split.
  - intros b Hb. rewrite Forall_forall in Hall.
    destruct (Hall b) as [Hlen Hck]; [by apply list_elem_of_In|].
    unfold Parser.step. rewrite Hst.
    rewrite take_app_length', drop_app_length' by (symmetry; assumption).
    rewrite consumeHeader_invalid by assumption. reflexivity.
  - unfold Parser.CONSUMECHUNK. rewrite Hbuf.
    rewrite loop_invalid_blocks by assumption.
    destruct (loop p (Some rest)) as [p' ev ch x]. cbn.
    destruct x; [|reflexivity..].
    destruct ch as [[|]|]; try reflexivity.
    all: rewrite app_assoc; reflexivity.
Qed.

(** *** An oversize meta entry *)

Lemma consumeHeader_oversize_meta p c :
  let h := Header_new c in
  let e := Entry_new h (Parser.EX p) (Parser.GEX p) in
  Header.cksumValid h = true ->
  ReadEntry.meta e = true ->
  Parser.maxMetaEntrySize p < ReadEntry.size e ->
  consumeHeader p c =
    (Parser.set_WRITEENTRY (Some (ReadEntry.set_ignore true e))
       (Parser.set_WRITEENTRY (Some e) p),
     [Parser.MetaEntryTooLarge e],
     Some (Parser.ReferenceError "ignore is not defined")).
Proof.
  intros h e Hck Hmeta Hsize. unfold Parser.consumeHeader.
  fold h. rewrite Hck. cbn [negb]. fold e. rewrite Hmeta.
  cbn [Parser.maxMetaEntrySize Parser.set_WRITEENTRY].
  apply Nat.ltb_lt in Hsize. rewrite Hsize. reflexivity.
Qed.

(** *** The lifetime of the extended overrides *)

Local Abbreviation once := (Parser.overrides_used_once Entry_new).

Local Abbreviation carries := (Parser.carries Entry_new).

Lemma once_app cleared ev1 ev2 :
  once cleared (ev1 ++ ev2)
  <-> once cleared ev1 /\ once (Parser.cleared_after cleared ev1) ev2.
Proof.
  revert cleared. induction ev1 as [|e ev1 IH]; intros cleared; cbn.
  - (unused; tauto).
  - rewrite IH. unfold Parser.cleared_after. (unused; tauto).
Qed.

Lemma carries_app cleared p ev1 p1 ev2 p2 :
  carries cleared p ev1 p1 ->
  carries (Parser.cleared_after cleared ev1) p1 ev2 p2 ->
  carries cleared p (ev1 ++ ev2) p2.
Proof.
  unfold Parser.carries. intros H1 H2 H. destruct (H1 H) as [Ha Hb].
  destruct (H2 Hb) as [Hc Hd]. split.
  - apply once_app. auto.
  - unfold Parser.cleared_after in *. rewrite fold_left_app. exact Hd.
Qed.

Lemma carries_quiet cleared p ev p' :
  Parser.EX p' = Parser.EX p ->
  Forall (fun x => match x with
                   | Parser.Entry _ | Parser.IgnoredEntry _ => False
                   | _ => True
                   end) ev ->
  carries cleared p ev p'.
Proof.
  intros Hex Hall Hc. revert cleared Hc.
  induction Hall as [|e ev He _ IH]; intros cleared Hc; cbn.
  - split; [exact I|]. intros ->. rewrite Hex. auto.
  - destruct e; try contradiction; cbn.
    all: try (destruct (IH cleared Hc) as [? ?]; (unused; tauto)).
    destruct (IH false) as [? ?]; [discriminate|]. (unused; tauto).
Qed.

Lemma consumeHeader_carries cleared p c :
  carries cleared p (consumeHeader p c).1.2 (consumeHeader p c).1.1.
Proof.
  unfold Parser.consumeHeader.
  destruct (Header.cksumValid (Header_new c)); cbn [negb].
  2:{ apply carries_quiet; [reflexivity|]. repeat constructor. }
  destruct (ReadEntry.meta _) eqn:Hmeta.
  { destruct (_ <? _); apply carries_quiet; try reflexivity;
      repeat constructor. }
  set (e := ReadEntry.set_ignore _ _).
  assert (cleared = true -> Parser.EX p = None ->
          Parser.made_without_overrides Entry_new e) as Hmade.
  { intros _ Hex. unfold e. cbn. rewrite Hex. eexists _, _, _. reflexivity. }
  intros Hc.
  destruct (ReadEntry.ignore e); cbn.
  - repeat split; auto.
  - destruct (ReadEntry.size _); cbn; repeat split; auto.
Qed.

Lemma consumeBodyChunk_EX p c emit :
  (forall d q, Parser.EX (emit d q).1.1 = Parser.EX q
               /\ Parser.GEX (emit d q).1.1 = Parser.GEX q) ->
  Parser.EX (Parser.c_parser (Parser.consumeBodyChunk p c emit)) = Parser.EX p
  /\ Parser.GEX (Parser.c_parser (Parser.consumeBodyChunk p c emit))
     = Parser.GEX p.
Proof.
  intros Hemit. unfold Parser.consumeBodyChunk.
  destruct (Parser.WRITEENTRY p) as [e|]; [|split; reflexivity].
  cbv zeta. destruct (_ <? ReadEntry.remain e)%Z.
  { pose proof (Hemit c p). destruct (emit c p) as [[q ev] [x|]];
      assumption. }
  destruct (_ <? ReadEntry.blockRemain e)%Z.
  { destruct (ReadEntry.remain e =? 0)%Z; [split; reflexivity|].
    pose proof (Hemit (slice_to c (ReadEntry.remain e)) p).
    destruct (emit _ p) as [[q ev] [x|]]; assumption. }
  pose proof (Hemit (slice_to c (ReadEntry.remain e)) p).
  destruct (emit _ p) as [[q ev] [x|]]; assumption.
Qed.

Lemma consumeEntryBody_EX p c :
  Parser.EX (Parser.c_parser (Parser.consumeEntryBody Entry_write p c))
  = Parser.EX p
  /\ Parser.GEX (Parser.c_parser (Parser.consumeEntryBody Entry_write p c))
     = Parser.GEX p.
Proof.
  apply consumeBodyChunk_EX. intros d q. unfold Parser.write_entry.
  destruct (Parser.WRITEENTRY q) as [e|]; [|split; reflexivity].
  destruct (Entry_write e d) as [[e' out]|]; split; reflexivity.
Qed.

Lemma consumeIgnoreBody_EX p c :
  Parser.EX (Parser.c_parser (Parser.consumeIgnoreBody p c)) = Parser.EX p
  /\ Parser.GEX (Parser.c_parser (Parser.consumeIgnoreBody p c))
     = Parser.GEX p.
Proof.
  unfold Parser.consumeIgnoreBody.
  destruct (Parser.WRITEENTRY p) as [e|]; [|split; reflexivity].
  cbv zeta. destruct (_ <=? _)%Z; split; reflexivity.
Qed.

Lemma consumeBodyChunk_events p c emit :
  (forall d q, Forall Parser.of_body (emit d q).1.2) ->
  Forall Parser.of_body (Parser.c_events (Parser.consumeBodyChunk p c emit)).
Proof.
  intros Hev. unfold Parser.consumeBodyChunk.
  destruct (Parser.WRITEENTRY p) as [e|]; [|constructor].
  cbv zeta. destruct (_ <? ReadEntry.remain e)%Z.
  { pose proof (Hev c p). destruct (emit c p) as [[q ev] [x|]];
      assumption. }
  destruct (_ <? ReadEntry.blockRemain e)%Z.
  { destruct (ReadEntry.remain e =? 0)%Z; [repeat constructor|].
    pose proof (Hev (slice_to c (ReadEntry.remain e)) p).
    destruct (emit _ p) as [[q ev] [x|]]; cbn in *; [assumption|].
    apply Forall_app. split; [assumption|repeat constructor]. }
  pose proof (Hev (slice_to c (ReadEntry.remain e)) p).
  destruct (emit _ p) as [[q ev] [x|]]; cbn in *; [assumption|].
  apply Forall_app. split; [assumption|repeat constructor].
Qed.

Lemma write_entry_events (d : Buffer) p :
  Forall Parser.of_body (Parser.write_entry Entry_write d p).1.2.
Proof.
  unfold Parser.write_entry.
  destruct (Parser.WRITEENTRY p) as [e|]; [|constructor].
  destruct (Entry_write e d) as [[e' out]|]; repeat constructor.
Qed.

(** A meta body changes the global overrides only when it belongs to a
    global extended header and is complete, and then to what
    [Pax.parse] makes of it and of the overrides in force. *)
Lemma consumeMeta_GEX p c :
  let p' := Parser.c_parser (consumeMeta p c) in
  Parser.GEX p' = Parser.GEX p
  \/ (exists e, Parser.WRITEENTRY p = Some e
                /\ ReadEntry.type e = "GlobalExtendedHeader"
                /\ Parser.WRITEENTRY p' = None
                /\ Parser.GEX p'
                   = Some (Pax_parse (Parser.META p') (Parser.GEX p) true)).
Proof.
  unfold Parser.consumeMeta.
  set (emit := Parser.append_meta toString).
  destruct (consumeBodyChunk_EX p c emit) as [Hex Hgex];
    [intros; split; reflexivity|].
  set (b := Parser.consumeBodyChunk p c emit) in *.
  destruct (Parser.c_exn b); [left; assumption|].
  destruct (Parser.WRITEENTRY (Parser.c_parser b)) eqn:Ew; [left; assumption|].
  destruct (Parser.WRITEENTRY p) as [e|] eqn:Ep; [|left; assumption].
  repeat case_decide; cbn; try (left; assumption).
  right. exists e. rewrite Hgex. auto.
Qed.

Lemma consumeMeta_carries cleared p c :
  carries cleared p (Parser.c_events (consumeMeta p c))
    (Parser.c_parser (consumeMeta p c)).
Proof.
  unfold Parser.consumeMeta.
  set (emit := Parser.append_meta toString).
  destruct (consumeBodyChunk_EX p c emit) as [Hex _];
    [intros; split; reflexivity|].
  pose proof (consumeBodyChunk_events p c emit) as Hev.
  set (b := Parser.consumeBodyChunk p c emit) in *.
  assert (Forall (fun x => match x with
                   | Parser.Entry _ | Parser.IgnoredEntry _ => False
                   | _ => True
                   end) (Parser.c_events b)) as Hquiet.
  { eapply Forall_impl; [apply Hev; intros; constructor|].
    intros []; cbn; (unused; tauto). }
  assert (forall q x,
    carries cleared p
      (Parser.c_events b ++ [Parser.MetaEvent x]) q) as Hfin.
  { intros q x Hc. split.
    - apply once_app. split.
      + apply (carries_quiet cleared p _ _ Hex Hquiet Hc).
      + cbn. auto.
    - unfold Parser.cleared_after. rewrite fold_left_app. cbn. discriminate. }
  destruct (Parser.c_exn b); [by apply carries_quiet|].
  destruct (Parser.WRITEENTRY (Parser.c_parser b)); [by apply carries_quiet|].
  destruct (Parser.WRITEENTRY p); [|by apply carries_quiet].
  repeat case_decide; cbn; apply Hfin.
Qed.

Lemma step_carries cleared p c :
  carries cleared p (Parser.c_events (step p c)) (Parser.c_parser (step p c)).
Proof.
  unfold Parser.step. destruct (Parser.STATE p).
  - pose proof (consumeHeader_carries cleared p (take 512 c)) as H.
    destruct (consumeHeader p (take 512 c)) as [[p' ev] x]. exact H.
  - apply carries_quiet; [apply consumeEntryBody_EX|].
    eapply Forall_impl;
      [apply consumeBodyChunk_events; intros; apply write_entry_events|].
    intros []; cbn; (unused; tauto).
  - apply consumeMeta_carries.
  - apply carries_quiet; [apply consumeIgnoreBody_EX|].
    unfold Parser.consumeIgnoreBody.
    destruct (Parser.WRITEENTRY p); [cbv zeta; destruct (_ <=? _)%Z|];
      constructor.
Qed.

Lemma consumeLoop_carries f cleared p chunk :
  carries cleared p (Parser.l_events (consumeLoop f p chunk))
    (Parser.l_parser (consumeLoop f p chunk)).
Proof.
  revert cleared p chunk.
  induction f as [|f IH]; intros cleared p chunk;
    destruct chunk as [c|]; cbn [Parser.consumeLoop];
    try (apply carries_quiet; [reflexivity|constructor]).
  - destruct (512 <=? length c); apply carries_quiet;
      try reflexivity; constructor.
  - destruct (512 <=? length c);
      [|apply carries_quiet; [reflexivity|constructor]].
    pose proof (step_carries cleared p c) as Hs.
    destruct (Parser.c_exn (step p c)); [exact Hs|].
    cbn. eapply carries_app; [exact Hs|apply IH].
Qed.

Lemma CONSUMECHUNK_carries cleared p chunk :
  carries cleared p (CONSUMECHUNK p chunk).1.2 (CONSUMECHUNK p chunk).1.1.
Proof.
  unfold Parser.CONSUMECHUNK, Parser.loop.
  set (pc := match chunk with Some _ => _ | None => _ end).
  assert (Parser.EX pc.1 = Parser.EX p) as Hex.
  { unfold pc. destruct chunk, (Parser.BUFFER p); reflexivity. }
  destruct pc as [q ch]. cbn in Hex.
  pose proof (consumeLoop_carries (Parser.fuel_for ch) cleared q ch) as Hl.
  assert (carries cleared p
            (Parser.l_events (consumeLoop (Parser.fuel_for ch) q ch))
            (Parser.l_parser (consumeLoop (Parser.fuel_for ch) q ch))) as Hl'.
  { intros Hc. apply Hl. rewrite Hex. exact Hc. }
  destruct (consumeLoop (Parser.fuel_for ch) q ch) as [q' ev ch' x].
  cbn in *. destruct x; [|exact Hl'..].
  assert (carries cleared p (ev ++ (if Parser.ENDED q' then [Parser.End] else [])) q').
  { eapply carries_app; [exact Hl'|].
    apply carries_quiet; [reflexivity|].
    destruct (Parser.ENDED q'); repeat constructor. }
  destruct ch' as [[|]|]; cbn; assumption.
Qed.

Lemma carries_refl cleared p p' :
  Parser.EX p' = Parser.EX p -> carries cleared p [] p'.
Proof. intros H. apply carries_quiet; [exact H|constructor]. Qed.

Lemma carries_from cleared p q ev p' :
  Parser.EX q = Parser.EX p -> carries cleared q ev p' ->
  carries cleared p ev p'.
Proof. unfold Parser.carries. intros -> H. exact H. Qed.

Lemma consumeAll_carries cleared p (chunks : list Buffer) :
  carries cleared p
    (Parser.consumeAll Header_new Entry_new Entry_write Pax_parse toString p
       chunks).1.2
    (Parser.consumeAll Header_new Entry_new Entry_write Pax_parse toString p
       chunks).1.1.
Proof.
  revert cleared p. induction chunks as [|c chunks IH]; intros cleared p.
  - by apply carries_refl.
  - cbn [Parser.consumeAll].
    pose proof (CONSUMECHUNK_carries cleared p (Some c)) as Hc.
    destruct (CONSUMECHUNK p (Some c)) as [[p1 ev1] x1]. cbn in Hc.
    destruct x1; try exact Hc.
    pose proof (IH (Parser.cleared_after cleared ev1) p1) as Hr.
    destruct (Parser.consumeAll _ _ _ _ _ p1 chunks) as [[p2 ev2] x2].
    cbn in *. eapply carries_app; eassumption.
Qed.

Lemma write_carries cleared p chunk :
  carries cleared p (write p chunk).1.2 (write p chunk).1.1.
Proof.
  unfold Parser.write.
  set (pre := match Parser.UNZIP p with Parser.UnzipNull => _ | _ => _ end).
  assert (Parser.EX pre.1.1 = Parser.EX p) as Hex.
  { unfold pre. destruct (Parser.UNZIP p), chunk as [c|]; try reflexivity.
    destruct (Parser.BUFFER p);
      repeat (match goal with |- context [if ?b then _ else _] =>
                destruct b end); reflexivity. }
  destruct pre as [[q ch] returned]. cbn in Hex.
  destruct returned; [by apply carries_refl|].
  destruct (Parser.UNZIP q) as [| |z].
  - eapply carries_from; [exact Hex|apply CONSUMECHUNK_carries].
  - eapply carries_from; [exact Hex|apply CONSUMECHUNK_carries].
  - destruct (if Parser.ENDED q then _ else _) as [z' out].
    eapply carries_from; [|apply consumeAll_carries]. exact Hex.
Qed.

Lemma writes_carries cleared p (chunks : list Buffer) :
  carries cleared p (writes p chunks).1.2 (writes p chunks).1.1.
Proof.
  revert cleared p. induction chunks as [|c chunks IH]; intros cleared p.
  - by apply carries_refl.
  - cbn [Parser.writes].
    pose proof (write_carries cleared p (Some c)) as Hc.
    destruct (write p (Some c)) as [[p1 ev1] x1]. cbn in Hc.
    destruct x1; try exact Hc.
    pose proof (IH (Parser.cleared_after cleared ev1) p1) as Hr.
    destruct (writes p1 chunks) as [[p2 ev2] x2].
    cbn in *. eapply carries_app; eassumption.
Qed.

Lemma consumeHeader_GEX p c :
  Parser.GEX (consumeHeader p c).1.1 = Parser.GEX p.
Proof.
  unfold Parser.consumeHeader.
  repeat (match goal with |- context [if ?b then _ else _] =>
            destruct b end); reflexivity.
Qed.

Lemma consumeHeader_entry p c :
  let h := Header_new c in
  let e := Entry_new h (Parser.EX p) (Parser.GEX p) in
  Header.cksumValid h = true ->
  ReadEntry.meta e = false ->
  let e' :=
    ReadEntry.set_ignore
      (ReadEntry.ignore e || negb (Parser.filter p e)) e in
  (consumeHeader p c).2 = None
  /\ Parser.EX (consumeHeader p c).1.1 = None
  /\ Parser.WRITEENTRY (consumeHeader p c).1.1 = Some e'
  /\ (if ReadEntry.ignore e' then
        (consumeHeader p c).1.2 = [Parser.IgnoredEntry e']
      else
        (consumeHeader p c).1.2
          = (if ReadEntry.size e is 0 then [Parser.EntryEnd] else [])
              ++ [Parser.Entry e']).
Proof.
  intros h e Hck Hmeta e'. unfold Parser.consumeHeader.
  fold h. rewrite Hck. cbn [negb]. fold e. rewrite Hmeta.
  cbn [Parser.filter Parser.set_EX Parser.set_WRITEENTRY]. fold e'.
  destruct (ReadEntry.ignore e'); cbn; auto.
Qed.

Lemma consumeHeader_keeps_EX p c :
  let h := Header_new c in
  let e := Entry_new h (Parser.EX p) (Parser.GEX p) in
  Header.cksumValid h = false \/ ReadEntry.meta e = true ->
  Parser.EX (consumeHeader p c).1.1 = Parser.EX p.
Proof.
  intros h e H. unfold Parser.consumeHeader. fold h.
  destruct (Header.cksumValid h); cbn [negb]; [|reflexivity].
  fold e. destruct H as [H|H]; [discriminate|]. rewrite H.
  destruct (_ <? _); reflexivity.
Qed.


(** *** Gzip detection *)

Lemma set_BUFFER_same p : Parser.set_BUFFER (Parser.BUFFER p) p = p.
Proof. destruct p; reflexivity. Qed.

Lemma differs_gzip (acc : Buffer) :
  2 <= length acc ->
  Parser.differs acc 0 Parser.gzipHeader = false
  <-> exists r, acc = x1f :: x8b :: r.
Proof.
  destruct acc as [|a [|b r]]; cbn; try lia. intros _.
  destruct (Byte.eqb a x1f) eqn:Ea.
  - apply byte_dec_bl in Ea as ->.
    destruct (Byte.eqb b x8b) eqn:Eb.
    + apply byte_dec_bl in Eb as ->. split; eauto.
    + apply eqb_false in Eb. split; [discriminate|].
      intros [r' [= ? ?]]. congruence.
  - apply eqb_false in Ea. split; [discriminate|].
    intros [r' [= ? ?]]. congruence.
Qed.

Lemma consumeHeader_UNZIP p c :
  Parser.UNZIP (consumeHeader p c).1.1 = Parser.UNZIP p.
Proof.
  unfold Parser.consumeHeader.
  repeat (match goal with |- context [if ?b then _ else _] =>
            destruct b end); reflexivity.
Qed.

Lemma consumeBodyChunk_UNZIP p c emit :
  (forall d q, Parser.UNZIP (emit d q).1.1 = Parser.UNZIP q) ->
  Parser.UNZIP (Parser.c_parser (Parser.consumeBodyChunk p c emit))
    = Parser.UNZIP p.
Proof.
  intros Hemit. unfold Parser.consumeBodyChunk.
  destruct (Parser.WRITEENTRY p) as [e|]; [|reflexivity].
  cbv zeta. destruct (_ <? ReadEntry.remain e)%Z.
  { pose proof (Hemit c p). destruct (emit c p) as [[q ev] [x|]];
      assumption. }
  destruct (_ <? ReadEntry.blockRemain e)%Z.
  { destruct (ReadEntry.remain e =? 0)%Z; [reflexivity|].
    pose proof (Hemit (slice_to c (ReadEntry.remain e)) p).
    destruct (emit _ p) as [[q ev] [x|]]; assumption. }
  pose proof (Hemit (slice_to c (ReadEntry.remain e)) p).
  destruct (emit _ p) as [[q ev] [x|]]; assumption.
Qed.

Lemma step_UNZIP p c :
  Parser.UNZIP (Parser.c_parser (step p c)) = Parser.UNZIP p.
Proof.
  unfold Parser.step. destruct (Parser.STATE p).
  - pose proof (consumeHeader_UNZIP p (take 512 c)) as H.
    destruct (consumeHeader p (take 512 c)) as [[p' ev] x]. exact H.
  - apply consumeBodyChunk_UNZIP. intros d q. unfold Parser.write_entry.
    destruct (Parser.WRITEENTRY q) as [e|]; [|reflexivity].
    destruct (Entry_write e d) as [[e' out]|]; reflexivity.
  - unfold Parser.consumeMeta.
    set (emit := Parser.append_meta toString).
    pose proof (consumeBodyChunk_UNZIP p c emit) as Hb.
    set (b := Parser.consumeBodyChunk p c emit) in *.
    destruct (Parser.c_exn b); [by apply Hb|].
    destruct (Parser.WRITEENTRY (Parser.c_parser b)); [by apply Hb|].
    destruct (Parser.WRITEENTRY p); [|by apply Hb].
    repeat case_decide; cbn; by apply Hb.
  - unfold Parser.consumeIgnoreBody.
    destruct (Parser.WRITEENTRY p); [cbv zeta; destruct (_ <=? _)%Z|];
      reflexivity.
Qed.

Lemma consumeLoop_UNZIP f p chunk :
  Parser.UNZIP (Parser.l_parser (consumeLoop f p chunk)) = Parser.UNZIP p.
Proof.
  revert p chunk. induction f as [|f IH]; intros p [c|];
    cbn [Parser.consumeLoop]; try reflexivity.
  - destruct (512 <=? length c); reflexivity.
  - destruct (512 <=? length c); [|reflexivity].
    pose proof (step_UNZIP p c) as Hs.
    destruct (Parser.c_exn (step p c)); [exact Hs|].
    cbn. rewrite IH. exact Hs.
Qed.

Lemma CONSUMECHUNK_UNZIP p chunk :
  Parser.UNZIP (CONSUMECHUNK p chunk).1.1 = Parser.UNZIP p.
Proof.
  unfold Parser.CONSUMECHUNK, Parser.loop.
  set (pc := match chunk with Some _ => _ | None => _ end).
  assert (Parser.UNZIP pc.1 = Parser.UNZIP p) as Hu.
  { unfold pc. destruct chunk, (Parser.BUFFER p); reflexivity. }
  destruct pc as [q ch]. cbn in Hu.
  pose proof (consumeLoop_UNZIP (Parser.fuel_for ch) q ch) as Hl.
  destruct (consumeLoop (Parser.fuel_for ch) q ch) as [q' ev ch' x].
  cbn in *. rewrite <- Hu, <- Hl.
  destruct x; try reflexivity.
  destruct ch' as [[|]|]; reflexivity.
Qed.

Lemma consumeAll_UNZIP p (chunks : list Buffer) :
  Parser.UNZIP
    (Parser.consumeAll Header_new Entry_new Entry_write Pax_parse toString p
       chunks).1.1
  = Parser.UNZIP p.
Proof.
  revert p. induction chunks as [|c chunks IH]; intros p; [reflexivity|].
  cbn [Parser.consumeAll].
  pose proof (CONSUMECHUNK_UNZIP p (Some c)) as Hc.
  destruct (CONSUMECHUNK p (Some c)) as [[p1 ev1] x1]. cbn in Hc.
  destruct x1; try exact Hc.
  pose proof (IH p1) as Hr.
  destruct (Parser.consumeAll _ _ _ _ _ p1 chunks) as [[p2 ev2] x2].
  cbn in *. congruence.
Qed.

Lemma write_plain p chunk :
  Parser.UNZIP p = Parser.UnzipFalse ->
  write p chunk = CONSUMECHUNK p chunk.
Proof. intros H. unfold Parser.write. rewrite H. cbn. rewrite H. reflexivity. Qed.

Lemma write_stream p chunk z :
  Parser.UNZIP p = Parser.UnzipStream z ->
  write p chunk =
    (let '(z', out) :=
       if Parser.ENDED p then Unzip_end z chunk else Unzip_write z chunk in
     Parser.consumeAll Header_new Entry_new Entry_write Pax_parse toString
       (Parser.set_UNZIP (Parser.UnzipStream z') p) out).
Proof. intros H. unfold Parser.write. rewrite H. cbn. rewrite H. reflexivity. Qed.

Lemma writes_decided p (chunks : list Buffer) :
  (Parser.UNZIP p = Parser.UnzipFalse ->
   Parser.UNZIP (writes p chunks).1.1 = Parser.UnzipFalse)
  /\ ((exists z, Parser.UNZIP p = Parser.UnzipStream z) ->
      exists z, Parser.UNZIP (writes p chunks).1.1 = Parser.UnzipStream z).
Proof.
  revert p. induction chunks as [|c chunks IH]; intros p; [cbn; (unused; tauto)|].
  cbn [Parser.writes]. split.
  - intros H. rewrite (write_plain _ _ H).
    pose proof (CONSUMECHUNK_UNZIP p (Some c)) as Hc.
    destruct (CONSUMECHUNK p (Some c)) as [[p1 ev1] x1]. cbn in Hc.
    rewrite H in Hc. destruct x1; try exact Hc.
    destruct (IH p1) as [Hr _]. specialize (Hr Hc).
    destruct (writes p1 chunks) as [[p2 ev2] x2]. exact Hr.
  - intros [z H]. rewrite (write_stream _ _ _ H).
    destruct (if Parser.ENDED p then _ else _) as [z' out].
    pose proof (consumeAll_UNZIP
                  (Parser.set_UNZIP (Parser.UnzipStream z') p) out) as Hc.
    destruct (Parser.consumeAll _ _ _ _ _ _ out) as [[p1 ev1] x1].
    cbn in Hc. destruct x1; try (eexists; exact Hc).
    destruct (IH p1) as [_ Hr].
    destruct (writes p1 chunks) as [[p2 ev2] x2]. eauto.
Qed.


End ParserProperties.
(** * The parser on actual archives *)

(** Two blocks of zeros, the end-of-archive marker, are two invalid
    headers to the parser. *)
Lemma invalid_header_keeps_parsing_witness :
  Parser.CONSUMECHUNK Collaborators.Header_new Collaborators.Entry_new
    Collaborators.Entry_write Collaborators.Pax_parse Collaborators.toString
    Examples.fresh (Some (concat [repeat x00 512; repeat x00 512] ++ []))
  = (Examples.fresh,
     [Parser.InvalidHeader (Collaborators.Header_new (repeat x00 512));
      Parser.InvalidHeader (Collaborators.Header_new (repeat x00 512))],
     Parser.Normal).
Proof.
  refine (proj2 (invalid_header_keeps_parsing Collaborators.Header_new
                   Collaborators.Entry_new Collaborators.Entry_write
                   Collaborators.Pax_parse Collaborators.toString
                   Examples.fresh
                   [repeat x00 512; repeat x00 512] [] eq_refl eq_refl _)).
  repeat constructor; vm_compute; reflexivity.
Defined.

(** C7.  [new Parser ({ maxMetaEntrySize: 10 })] is written the header of
    an extended header entry of 100 bytes.  The parser emits
    [metaEntryTooLarge] and marks the entry ignored, and then the call
    ends with a [ReferenceError]: the state is still 'begin', not
    'ignore', and the rest of the archive is not parsed. *)
Theorem oversize_meta_entry_throws :
  let block := Collaborators.header_block "PaxHeader/a" "x" 100 in
  let h := Collaborators.Header_new block in
  let e := Collaborators.Entry_new h None None in
  let '(p, ev, x) :=
    Examples.write Examples.small_meta (Some (block ++ Examples.bytes 512)) in
  Header.cksumValid h = true
  /\ ReadEntry.meta e = true
  /\ ReadEntry.size e = 100
  /\ ev = [Parser.MetaEntryTooLarge e]
  /\ x = Parser.Threw (Parser.ReferenceError "ignore is not defined")
  /\ Parser.STATE p = Parser.Begin
  /\ Parser.WRITEENTRY p = Some (ReadEntry.set_ignore true e).
Proof. vm_compute. repeat split. Qed.

(** *** Bodies *)

(** [entry.write] as modelled does what [test/read-entry.js] expects of
    it: an entry of 23 bytes that is written a block of 512 bytes in
    pieces of 1, 24 and 487 bytes hands on its 23 bytes and no more, or
    nothing when it is ignored, and a further write of 1024 bytes
    throws; an entry of 100 bytes written its block at once hands on its
    100 bytes. *)
Lemma Entry_write_as_tested :
  let body := Examples.bytes 512 in
  let pieces := [take 1 body; take 24 (drop 1 body); drop 25 body] in
  option_map snd (Examples.pushes (Examples.entry 23) pieces)
  = Some (take 23 body)
  /\ option_map snd
       (Examples.pushes (ReadEntry.set_ignore true (Examples.entry 23))
          pieces)
     = Some []
  /\ Examples.pushes (Examples.entry 23) (pieces ++ [repeat x00 1024]) = None
  /\ option_map snd (Examples.pushes (Examples.entry 100) [body])
     = Some (take 100 body).
Proof. vm_compute. repeat split. Qed.

(** C4.  In the body state the bytes of a chunk are counted off the entry
    twice: [entry.write] counts what it is given off [remain] and
    [blockRemain], and [consumeBodyChunk] then subtracts from the same
    counters, or reads them to cut the chunk.

    An entry of 2000 bytes ([remain = 2000], [blockRemain = 2048]) that
    is given a chunk of 600 bytes gets the 600 bytes and is left with
    [remain = 800] and [blockRemain = 848], not 1400 and 1448.

    An entry of 100 bytes ([remain = 100], [blockRemain = 512]) that is
    given its whole block of 512 bytes gets its 100 bytes and is ended,
    and the parser goes back to 'begin'; but the parser hands back the
    last 100 bytes of the block to be parsed again, as if 412 bytes had
    been consumed and not 512: the first write has left [blockRemain] at
    412, and the rest of the chunk is cut there. *)
Theorem body_bytes_are_counted_twice :
  let counters (e : option ReadEntry.t) :=
    option_map (fun e => (ReadEntry.remain e, ReadEntry.blockRemain e)) e in
  let short :=
    Examples.consumeEntryBody (Examples.in_body 2000) (Examples.bytes 600) in
  let whole :=
    Examples.consumeEntryBody (Examples.in_body 100) (Examples.bytes 512) in
  (Parser.STATE (Examples.in_body 2000) = Parser.Body
   /\ counters (Parser.WRITEENTRY (Examples.in_body 2000))
      = Some (2000, 2048)%Z
   /\ Parser.c_events short
      = [Parser.EntryWrite (Examples.bytes 600);
         Parser.EntryData (Examples.bytes 600)]
   /\ Parser.c_exn short = None
   /\ Parser.c_ret short = None
   /\ Parser.STATE (Parser.c_parser short) = Parser.Body
   /\ counters (Parser.WRITEENTRY (Parser.c_parser short))
      = Some (800, 848)%Z)
  /\ (Parser.STATE (Examples.in_body 100) = Parser.Body
      /\ counters (Parser.WRITEENTRY (Examples.in_body 100))
         = Some (100, 512)%Z
      /\ Parser.c_events whole
         = [Parser.EntryWrite (Examples.bytes 100);
            Parser.EntryData (Examples.bytes 100);
            Parser.EntryEnd]
      /\ Parser.c_exn whole = None
      /\ Parser.STATE (Parser.c_parser whole) = Parser.Begin
      /\ counters (Parser.c_entry whole) = Some (0, 412)%Z
      /\ Parser.c_ret whole = Some (Examples.bytes 100)).
Proof. vm_compute. repeat split. Qed.

(** *** Chunks *)

(** C1.  The archive of a file of 800 bytes is written in two chunks,
    the header with 700 bytes of the body and then the 324 bytes that
    remain.  Neither call throws.  The entry gets the 700 bytes of the
    first chunk; the second chunk is shorter than 512 bytes, so the loop
    of [CONSUMECHUNK] does not look at it and it is put into
    [this[BUFFER]] whole, with the parser in the body state: the entry
    has not got its last 100 bytes.  Written at once, the same bytes
    give the entry its 800 bytes. *)
Theorem body_remainder_is_held_back :
  let chunked := Examples.writes Examples.fresh Examples.cut in
  let single := Examples.write Examples.fresh (Some (concat Examples.cut)) in
  chunked.2 = Parser.Normal
  /\ single.2 = Parser.Normal
  /\ Parser.bodies chunked.1.2 = [(Examples.entry 800, Examples.bytes 700)]
  /\ Parser.STATE chunked.1.1 = Parser.Body
  /\ Parser.pending chunked.1.1 = Examples.bytes 324
  /\ Parser.bodies single.1.2 = [(Examples.entry 800, Examples.bytes 800)].
Proof. vm_compute. repeat split. Qed.

(** * Properties of the archive writer *)

Section WriteEntryProperties.

Context (needPax : WriteEntry.fields -> bool) (USER : string)
        (FS : WriteEntry.fs) (rev : WriteEntry.revision).

Local Abbreviation HEADER := (WriteEntry.HEADER needPax USER).
Local Abbreviation HARDLINK := (WriteEntry.HARDLINK needPax USER rev).
Local Abbreviation READ := (WriteEntry.READ FS).
Local Abbreviation OPENFILE := (WriteEntry.OPENFILE FS rev).
Local Abbreviation FILE := (WriteEntry.FILE needPax USER FS rev).
Local Abbreviation PROCESS := (WriteEntry.PROCESS needPax USER FS rev).
Local Abbreviation ONLSTAT := (WriteEntry.ONLSTAT needPax USER FS rev).
Local Abbreviation constructor :=
  (WriteEntry.constructor needPax USER FS rev).
Local Abbreviation create := (WriteEntry.create needPax USER FS rev).

Implicit Types (e : WriteEntry.t) (c : WriteEntry.caches)
  (st : WriteEntry.Stats) (out : list WriteEntry.output).

(** *** The header of an entry *)

Lemma header_of_HEADER e out :
  exists f,
    WriteEntry.header_of (HEADER e ++ out) = Some f
    /\ WriteEntry.f_path f = WriteEntry.path e
    /\ WriteEntry.f_linkpath f = WriteEntry.linkpath e
    /\ WriteEntry.f_type f = WriteEntry.type e
    /\ WriteEntry.f_size f = WriteEntry.size (WriteEntry.stat e).
Proof.
  unfold WriteEntry.HEADER, WriteEntry.header_of.
  destruct (needPax _); cbn; eauto 10.
Qed.

Lemma body_of_HEADER e out :
  WriteEntry.body_of (HEADER e ++ out) = WriteEntry.body_of out.
Proof.
  unfold WriteEntry.HEADER, WriteEntry.body_of.
  destruct (needPax _); reflexivity.
Qed.

Lemma HEADER_quiet e o :
  In o (HEADER e) ->
  match o with
  | WriteEntry.write_pax _ _ | WriteEntry.write_header _ => True
  | _ => False
  end.
Proof.
  unfold WriteEntry.HEADER. destruct (needPax _); cbn; intros H;
    repeat (destruct H as [<-|H]; [exact I|]); destruct H.
Qed.

(** *** A read of no bytes *)

Lemma READ_nothing fuel fd buf pos remain blockRemain :
  WriteEntry.read FS fd pos (length buf) = inr [] ->
  READ (S fuel) fd buf pos remain blockRemain = ([], WriteEntry.Thrown "wat").
Proof. intros H. cbn. rewrite H. reflexivity. Qed.

Lemma READ_error fuel fd buf pos remain blockRemain er :
  WriteEntry.read FS fd pos (length buf) = inl er ->
  READ (S fuel) fd buf pos remain blockRemain
  = ([WriteEntry.close fd; WriteEntry.emit_error er], WriteEntry.Returned).
Proof. intros H. cbn. rewrite H. reflexivity. Qed.

(** *** Reading the body *)

Lemma zerofill_spec n i (buf : Buffer) (bytesRead remain blockRemain : Z) :
  length buf - i <= n ->
  let z := min (length buf - i) (Z.to_nat (blockRemain - bytesRead)) in
  exists buf',
    WriteEntry.zerofill n i buf bytesRead remain blockRemain
    = (buf', (bytesRead + Z.of_nat z)%Z, (remain + Z.of_nat z)%Z)
    /\ length buf' = length buf
    /\ take (i + z) buf' = take i buf ++ repeat x00 z.
Proof.
  revert i buf bytesRead remain.
  induction n as [|n IH]; intros i buf bytesRead remain Hn z.
  - exists buf. assert (z = 0) as -> by lia.
    cbn [WriteEntry.zerofill]. rewrite !Z.add_0_r, Nat.add_0_r, app_nil_r.
    done.
  - cbn [WriteEntry.zerofill].
    destruct (i <? length buf) eqn:Hi; cbn [andb].
    2:{ apply Nat.ltb_ge in Hi. exists buf. assert (z = 0) as -> by lia.
        rewrite !Z.add_0_r, Nat.add_0_r, app_nil_r. done. }
    apply Nat.ltb_lt in Hi.
    destruct (bytesRead <? blockRemain)%Z eqn:Hb.
    2:{ apply Z.ltb_ge in Hb. exists buf. assert (z = 0) as -> by lia.
        rewrite !Z.add_0_r, Nat.add_0_r, app_nil_r. done. }
    apply Z.ltb_lt in Hb.
    destruct (IH (S i) (<[i := x00]> buf) (bytesRead + 1)%Z (remain + 1)%Z)
      as (buf' & E & Hlen & Htake); [rewrite length_insert; lia|].
    rewrite length_insert in E, Hlen, Htake.
    set (z' := min (length buf - S i)
                 (Z.to_nat (blockRemain - (bytesRead + 1)))) in *.
    assert (z = S z') as -> by lia.
    exists buf'. split; [rewrite E; f_equal; [f_equal|]; lia|].
    split; [exact Hlen|].
    replace (i + S z') with (S i + z') by lia. rewrite Htake.
    rewrite (take_S_r _ i x00) by (by apply list_lookup_insert_eq).
    rewrite take_insert_ge by lia. by rewrite <- app_assoc.
Qed.

Lemma READ_step fuel fd (buf : Buffer) (pos remain blockRemain : Z)
    (data : Buffer) :
  WriteEntry.read FS fd pos (length buf) = inr data ->
  data <> [] ->
  READ (S fuel) fd buf pos remain blockRemain =
    (let buf := take (length buf) (data ++ drop (length data) buf) in
     let bytesRead := Z.of_nat (length data) in
     let '(buf, bytesRead, remain) :=
       if (bytesRead =? remain)%Z then
         WriteEntry.zerofill (length buf) (Z.to_nat bytesRead) buf bytesRead
           remain blockRemain
       else (buf, bytesRead, remain) in
     let chunk :=
       if (bytesRead =? Z.of_nat (length buf))%Z then buf
       else take (Z.to_nat bytesRead) buf in
     let remain := (remain - bytesRead)%Z in
     let blockRemain := (blockRemain - bytesRead)%Z in
     let pos := (pos + bytesRead)%Z in
     if (remain =? 0)%Z then
       (WriteEntry.write chunk
          :: (if (blockRemain =? 0)%Z then []
              else [WriteEntry.write (repeat x00 (Z.to_nat blockRemain))])
          ++ [WriteEntry.end_; WriteEntry.close fd],
        WriteEntry.Returned)
     else
       let '(out, x) := READ fuel fd buf pos remain blockRemain in
       (WriteEntry.write chunk :: out, x)).
Proof.
  intros Hr Hd. cbn [WriteEntry.READ]. rewrite Hr.
  destruct data as [|b data]; [done|]. reflexivity.
Qed.

(** A file system on which the descriptor [fd] reads the bytes
    [content]: a read at [pos] gives the bytes from there on, as many as
    asked for or as are left. *)
Lemma READ_reads (content : Buffer) fd :
  (forall pos len,
     WriteEntry.read FS fd pos len
     = inr (take len (drop (Z.to_nat pos) content))) ->
  forall fuel (buf : Buffer) (pos remain blockRemain : Z),
    (0 <= pos)%Z -> (0 < remain)%Z ->
    (pos + remain)%Z = Z.of_nat (length content) ->
    (remain <= blockRemain)%Z -> 0 < length buf ->
    Z.to_nat remain <= fuel ->
    exists chunks,
      READ fuel fd buf pos remain blockRemain
      = (map WriteEntry.write chunks
           ++ [WriteEntry.end_; WriteEntry.close fd],
         WriteEntry.Returned)
      /\ concat chunks
         = drop (Z.to_nat pos) content
             ++ repeat x00 (Z.to_nat (blockRemain - remain)).
Proof.
  intros Hread fuel.
  induction fuel as [|fuel IH];
    intros buf pos remain blockRemain Hpos Hrem Hsum Hblock Hbuf Hfuel;
    [lia|].
  set (rest := drop (Z.to_nat pos) content).
  assert (length rest = Z.to_nat remain) as Hrest
    by (unfold rest; rewrite length_drop; lia).
  set (data := take (length buf) rest).
  assert (length data = min (length buf) (Z.to_nat remain)) as Hdata
    by (unfold data; rewrite length_take; lia).
  rewrite (READ_step fuel fd buf pos remain blockRemain data);
    [|apply Hread|intros E; rewrite E in Hdata; cbn in Hdata; lia].
  cbv zeta.
  set (buf1 := take (length buf) (data ++ drop (length data) buf)).
  assert (length buf1 = length buf) as Hlen1.
  { unfold buf1. rewrite length_take, length_app, length_drop. lia. }
  assert (take (length data) buf1 = data) as Htake1.
  { unfold buf1. rewrite take_take, Nat.min_l by lia.
    apply take_app_length. }
  destruct (Z.of_nat (length data) =? remain)%Z eqn:Hlast.
  - apply Z.eqb_eq in Hlast.
    assert (data = rest) as Hall
      by (unfold data; apply take_ge; lia).
    destruct (zerofill_spec (length buf1) (Z.to_nat (Z.of_nat (length data)))
                buf1 (Z.of_nat (length data)) remain blockRemain)
      as (buf' & -> & Hlen' & Htake'); [lia|].
    rewrite Nat2Z.id in Htake'. rewrite Nat2Z.id.
    set (z := min (length buf1 - length data)
                (Z.to_nat (blockRemain - Z.of_nat (length data)))) in *.
    assert ((if (Z.of_nat (length data) + Z.of_nat z
                 =? Z.of_nat (length buf'))%Z
             then buf'
             else take (Z.to_nat (Z.of_nat (length data) + Z.of_nat z)) buf')
            = data ++ repeat x00 z) as ->.
    { rewrite <- Htake1 at 3. rewrite <- Htake'.
      destruct (_ =? _)%Z eqn:E.
      - apply Z.eqb_eq in E. symmetry. apply take_ge. lia.
      - f_equal. lia. }
    replace (remain + Z.of_nat z - (Z.of_nat (length data) + Z.of_nat z)
             =? 0)%Z with true by (symmetry; apply Z.eqb_eq; lia).
    set (left := (blockRemain - (Z.of_nat (length data) + Z.of_nat z))%Z).
    exists ((data ++ repeat x00 z)
            :: (if (left =? 0)%Z then []
                else [repeat x00 (Z.to_nat left)])).
    split.
    + cbn [map app]. by destruct (left =? 0)%Z.
    + rewrite Hall.
      replace (Z.to_nat (blockRemain - remain)) with (z + Z.to_nat left)
        by (unfold left; lia).
      rewrite repeat_app, app_assoc. cbn [concat]. f_equal.
      destruct (left =? 0)%Z eqn:E.
      * apply Z.eqb_eq in E. rewrite E. reflexivity.
      * cbn. by rewrite app_nil_r.
  - apply Z.eqb_neq in Hlast.
    assert (length data = length buf) as Hfull by lia.
    rewrite Hlen1, Hfull, Z.eqb_refl.
    assert (buf1 = data) as ->.
    { rewrite <- Htake1. symmetry. apply take_ge. lia. }
    replace (remain - Z.of_nat (length buf) =? 0)%Z with false
      by (symmetry; apply Z.eqb_neq; lia).
    destruct (IH data (pos + Z.of_nat (length buf))%Z
                (remain - Z.of_nat (length buf))%Z
                (blockRemain - Z.of_nat (length buf))%Z)
      as (chunks & -> & Hc); [lia..|].
    exists (data :: chunks). split; [reflexivity|].
    cbn [concat]. rewrite Hc.
    replace (blockRemain - Z.of_nat (length buf)
             - (remain - Z.of_nat (length buf)))%Z
      with (blockRemain - remain)%Z by lia.
    rewrite app_assoc. f_equal.
    replace (Z.to_nat (pos + Z.of_nat (length buf)))
      with (Z.to_nat pos + length buf) by lia.
    rewrite <- drop_drop. fold rest. unfold data. apply take_drop.
Qed.

Lemma blockLen_covers (sz : Z) :
  (0 < sz)%Z -> (sz <= WriteEntry.blockLen rev sz)%Z.
Proof.
  intros H. unfold WriteEntry.blockLen. destruct rev.
  - pose proof (Z.div_mod (- sz) 512 ltac:(lia)).
    pose proof (Z.mod_pos_bound (- sz) 512 ltac:(lia)). lia.
  - pose proof (Z.div_mod sz 512 ltac:(lia)).
    pose proof (Z.mod_pos_bound sz 512 ltac:(lia)). lia.
Qed.

Lemma body_of_writes (chunks : list Buffer) out :
  Forall (fun o => match o with WriteEntry.write _ => False | _ => True end)
    out ->
  WriteEntry.body_of (map WriteEntry.write chunks ++ out) = chunks.
Proof.
  intros Hq. unfold WriteEntry.body_of. rewrite omap_app.
  replace (omap _ out) with (@nil Buffer).
  - rewrite app_nil_r. induction chunks as [|c chunks IH]; [reflexivity|].
    cbn. by rewrite IH.
  - induction Hq as [|o out Ho _ IH]; [reflexivity|].
    destruct o; cbn; try exact IH. destruct Ho.
Qed.

(** A file that can be opened and read is written out whole, followed
    by zeros up to the length of its blocks. *)
Lemma OPENFILE_reads fuel e fd (content : Buffer) :
  WriteEntry.open FS (WriteEntry.path e) = inr fd ->
  (forall pos len,
     WriteEntry.read FS fd pos len
     = inr (take len (drop (Z.to_nat pos) content))) ->
  WriteEntry.size (WriteEntry.stat e) = Z.of_nat (length content) ->
  content <> [] ->
  length content <= fuel ->
  exists chunks,
    OPENFILE fuel e
    = (map WriteEntry.write chunks
         ++ [WriteEntry.end_; WriteEntry.close fd],
       WriteEntry.Returned)
    /\ concat chunks
       = content
           ++ repeat x00
                (Z.to_nat
                   (WriteEntry.blockLen rev
                      (WriteEntry.size (WriteEntry.stat e))
                    - WriteEntry.size (WriteEntry.stat e))).
Proof.
  intros Ho Hr Hs Hne Hfuel. unfold WriteEntry.OPENFILE. rewrite Ho.
  assert (0 < length content) by (destruct content; [done|cbn; lia]).
  pose proof (blockLen_covers (WriteEntry.size (WriteEntry.stat e))
                ltac:(lia)) as Hb.
  destruct (READ_reads content fd Hr fuel
              (repeat x00
                 (Z.to_nat
                    (Z.min
                       (WriteEntry.blockLen rev
                          (WriteEntry.size (WriteEntry.stat e)))
                       WriteEntry.maxReadSize)))
              0%Z (WriteEntry.size (WriteEntry.stat e))
              (WriteEntry.blockLen rev (WriteEntry.size (WriteEntry.stat e))))
    as (chunks & E & Hc); try lia.
  { rewrite repeat_length. unfold WriteEntry.maxReadSize. lia. }
  exists chunks. split; [exact E|]. exact Hc.
Qed.

Lemma getType_File st :
  WriteEntry.isFile st = true -> WriteEntry.getType st = "File".
Proof. unfold WriteEntry.getType. by intros ->. Qed.

(** C8.  A file that is not empty is opened and its first read answers
    with no bytes.  The string ['wat'] is thrown out of the callback of
    [fs.read]: the entry has written its header, emits no ['error'], is
    not ended, and the descriptor stays open.  (An error of the read
    itself, in contrast, closes the descriptor and is emitted.) *)
Theorem shrunk_file_throws fuel (p : string) c st fd :
  WriteEntry.statCache c !! p = None ->
  WriteEntry.lstat FS p = inr st ->
  WriteEntry.isFile st = true ->
  (WriteEntry.nlink st <= 1)%N ->
  WriteEntry.size st <> 0%Z ->
  WriteEntry.open FS p = inr fd ->
  (forall len, WriteEntry.read FS fd 0 len = inr []) ->
  let '(out, x, _) := constructor (S fuel) p c in
  x = WriteEntry.Thrown "wat"
  /\ WriteEntry.body_of out = []
  /\ ~ In WriteEntry.end_ out
  /\ ~ In (WriteEntry.close fd) out
  /\ (forall er, ~ In (WriteEntry.emit_error er) out).
Proof.
  intros Hc Hl Hf Hn Hs Ho Hr.
  assert (forall c',
    PROCESS (S fuel) (WriteEntry.mk p st "File" None) c'
    = (HEADER (WriteEntry.mk p st "File" None), WriteEntry.Thrown "wat", c'))
    as HP.
  { intros c'. unfold WriteEntry.PROCESS, WriteEntry.FILE. cbn [WriteEntry.type].
    cbn [String.eqb Ascii.eqb Bool.eqb]. cbn [WriteEntry.stat].
    apply N.ltb_ge in Hn. rewrite Hn.
    apply Z.eqb_neq in Hs. rewrite Hs.
    unfold WriteEntry.OPENFILE. cbn [WriteEntry.path]. rewrite Ho.
    rewrite READ_nothing by apply Hr. by rewrite app_nil_r. }
  pose proof (body_of_HEADER (WriteEntry.mk p st "File" None) []) as Hb.
  rewrite app_nil_r in Hb.
  unfold WriteEntry.constructor, WriteEntry.LSTAT, WriteEntry.ONLSTAT.
  rewrite Hc, Hl, (getType_File st Hf).
  assert (forall out,
    (forall o, In o out ->
       match o with
       | WriteEntry.write_pax _ _ | WriteEntry.write_header _
       | WriteEntry.emit_stat _ => True
       | _ => False
       end) ->
    ~ In WriteEntry.end_ out /\ ~ In (WriteEntry.close fd) out
    /\ (forall er, ~ In (WriteEntry.emit_error er) out)) as Hq.
  { intros out H. repeat split; [intros Ho'..|intros er Ho'];
      exact (H _ Ho'). }
  destruct rev; rewrite HP.
  - split; [reflexivity|]. split; [exact Hb|]. apply Hq.
    intros o [<-|Ho']; [exact I|].
    apply HEADER_quiet in Ho'. by destruct o.
  - split; [reflexivity|]. split; [exact Hb|]. apply Hq.
    intros o Ho'. apply HEADER_quiet in Ho'. by destruct o.
Qed.

(** *** The hard-link cache *)

Lemma FILE_cached fuel e c cached :
  (1 < WriteEntry.nlink (WriteEntry.stat e))%N ->
  WriteEntry.linkCache c !! WriteEntry.linkKey (WriteEntry.stat e)
    = Some cached ->
  FILE fuel e c = HARDLINK e cached c.
Proof.
  intros Hn Hc. unfold WriteEntry.FILE.
  apply N.ltb_lt in Hn. rewrite Hn, Hc. reflexivity.
Qed.

Lemma FILE_fresh fuel e c :
  (1 < WriteEntry.nlink (WriteEntry.stat e))%N ->
  WriteEntry.linkCache c !! WriteEntry.linkKey (WriteEntry.stat e) = None ->
  FILE fuel e c =
    (HEADER e
       ++ (if (WriteEntry.size (WriteEntry.stat e) =? 0)%Z
           then [WriteEntry.end_] else (OPENFILE fuel e).1),
     (if (WriteEntry.size (WriteEntry.stat e) =? 0)%Z
      then WriteEntry.Returned else (OPENFILE fuel e).2),
     WriteEntry.Caches
       (<[WriteEntry.linkKey (WriteEntry.stat e) := WriteEntry.path e]>
          (WriteEntry.linkCache c))
       (WriteEntry.statCache c)).
Proof.
  intros Hn Hc. unfold WriteEntry.FILE.
  apply N.ltb_lt in Hn. rewrite Hn, Hc.
  destruct (_ =? _)%Z; [reflexivity|].
  by destruct (OPENFILE fuel e).
Qed.

(** What [[HARDLINK]] writes: the header of a link to [l], of size 0,
    and nothing else. *)
Lemma HARDLINK_output e l c :
  exists out c' f,
    HARDLINK e l c = (out, WriteEntry.Returned, c')
    /\ WriteEntry.linkCache c' = WriteEntry.linkCache c
    /\ WriteEntry.header_of out = Some f
    /\ WriteEntry.f_path f = WriteEntry.path e
    /\ WriteEntry.f_type f = "Link"
    /\ WriteEntry.f_linkpath f = Some l
    /\ WriteEntry.f_size f = 0%Z
    /\ WriteEntry.body_of out = []
    /\ In WriteEntry.end_ out.
Proof.
  unfold WriteEntry.HARDLINK.
  set (e' := WriteEntry.mk _ _ "Link" _).
  destruct (header_of_HEADER e' [WriteEntry.end_])
    as (f & Hf & Hp & Hl & Ht & Hs).
  eexists _, _, f. split; [reflexivity|].
  split; [by destruct rev|].
  repeat split; try assumption.
  - by rewrite body_of_HEADER.
  - apply in_or_app. right. by left.
Qed.

(** *** Entries that share a device and inode number *)

Section Shared.

Variables d i : N.

(** The paths of the entries. *)
Variable Q : string -> Prop.

Local Abbreviation key :=
  (WriteEntry.decimal d +:+ ":" +:+ WriteEntry.decimal i).

(** What the stat cache holds for the paths are stats of the file. *)
Local Abbreviation cached_share c :=
  (forall q st, Q q -> WriteEntry.statCache c !! q = Some st ->
                WriteEntry.shares d i st).

(** How an entry of the group other than the first one is encoded. *)
Local Abbreviation links_to p q o :=
  (o.2 = WriteEntry.Returned
   /\ WriteEntry.body_of o.1 = []
   /\ exists f,
        WriteEntry.header_of o.1 = Some f
        /\ WriteEntry.f_path f = q
        /\ WriteEntry.f_type f = "Link"
        /\ WriteEntry.f_linkpath f = Some p
        /\ WriteEntry.f_size f = 0%Z).

Lemma shares_linkKey st :
  WriteEntry.shares d i st -> WriteEntry.linkKey st = key.
Proof. intros (_ & <- & <- & _). reflexivity. Qed.

Lemma constructor_fresh fuel (q : string) c st :
  WriteEntry.statCache c !! q = None ->
  WriteEntry.lstat FS q = inr st ->
  constructor fuel q c = ONLSTAT fuel q st c.
Proof.
  intros Hc Hl. unfold WriteEntry.constructor, WriteEntry.LSTAT.
  rewrite Hc, Hl. by destruct rev.
Qed.

Lemma constructor_stat fuel (q : string) c :
  Q q ->
  (exists st, WriteEntry.lstat FS q = inr st /\ WriteEntry.shares d i st) ->
  cached_share c ->
  exists st, WriteEntry.shares d i st
             /\ constructor fuel q c = ONLSTAT fuel q st c.
Proof.
  intros Hq (st & Hl & Hs) Hc.
  unfold WriteEntry.constructor, WriteEntry.LSTAT. rewrite Hl.
  destruct rev; [|eauto].
  destruct (WriteEntry.statCache c !! q) as [st'|] eqn:E; eauto.
Qed.

Lemma cached_share_insert c q st :
  cached_share c -> WriteEntry.shares d i st ->
  forall q' st',
    Q q' ->
    <[q := st]> (WriteEntry.statCache c) !! q' = Some st' ->
    WriteEntry.shares d i st'.
Proof.
  intros Hc Hs q' st' Hq. destruct (decide (q = q')) as [<-|Hne].
  - rewrite lookup_insert_eq. by intros [= <-].
  - rewrite lookup_insert_ne by assumption. by apply Hc.
Qed.

Lemma HARDLINK_cached_share e l c :
  cached_share c -> WriteEntry.shares d i (WriteEntry.stat e) ->
  cached_share (HARDLINK e l c).2.
Proof.
  intros Hc Hs. unfold WriteEntry.HARDLINK. destruct rev; [|exact Hc].
  cbn [snd WriteEntry.statCache WriteEntry.path].
  apply (cached_share_insert c); [exact Hc|exact Hs].
Qed.

Lemma ONLSTAT_linked fuel (q p0 : string) st c :
  WriteEntry.shares d i st ->
  WriteEntry.linkCache c !! key = Some p0 ->
  cached_share c ->
  exists out c',
    ONLSTAT fuel q st c = (out, WriteEntry.Returned, c')
    /\ WriteEntry.linkCache c' = WriteEntry.linkCache c
    /\ cached_share c'
    /\ links_to p0 q (out, WriteEntry.Returned).
Proof.
  intros Hs Hk Hc. pose proof Hs as (Hf & Hd & Hi & Hn).
  unfold WriteEntry.ONLSTAT. rewrite (getType_File st Hf).
  set (e := WriteEntry.mk q st "File" None).
  assert (forall c1, WriteEntry.linkCache c1 !! key = Some p0 ->
            PROCESS fuel e c1 = HARDLINK e p0 c1) as HP.
  { intros c1 H1. unfold WriteEntry.PROCESS. cbn [WriteEntry.type String.eqb
      Ascii.eqb Bool.eqb]. apply FILE_cached; [exact Hn|].
    cbn [WriteEntry.stat e]. by rewrite (shares_linkKey st Hs). }
  pose proof (HARDLINK_output e p0
                (WriteEntry.Caches (WriteEntry.linkCache c)
                   (<[q := st]> (WriteEntry.statCache c))))
    as (out1 & c1 & f1 & E1 & Hlc1 & Hh1 & Hp1 & Ht1 & Hl1 & Hz1 & Hb1 & _).
  pose proof (HARDLINK_output e p0 c)
    as (out2 & c2 & f2 & E2 & Hlc2 & Hh2 & Hp2 & Ht2 & Hl2 & Hz2 & Hb2 & _).
  assert (cached_share c1) as Hc1.
  { pose proof (HARDLINK_cached_share e p0
                  (WriteEntry.Caches (WriteEntry.linkCache c)
                     (<[q := st]> (WriteEntry.statCache c)))
                  (cached_share_insert c q st Hc Hs) Hs) as H.
    by rewrite E1 in H. }
  assert (cached_share c2) as Hc2.
  { pose proof (HARDLINK_cached_share e p0 c Hc Hs) as H.
    by rewrite E2 in H. }
  rewrite !HP by exact Hk. rewrite E1, E2.
  destruct rev; eexists _, _; (split; [reflexivity|]).
  - split; [exact Hlc1|]. split; [exact Hc1|].
    cbn. split; [reflexivity|]. split; [exact Hb1|]. by exists f1.
  - split; [exact Hlc2|]. split; [exact Hc2|].
    cbn. split; [reflexivity|]. split; [exact Hb2|]. by exists f2.
Qed.

Lemma ONLSTAT_first fuel (q : string) st c :
  WriteEntry.shares d i st ->
  WriteEntry.linkCache c !! key = None ->
  cached_share c ->
  exists out c',
    ONLSTAT fuel q st c
    = (out, (FILE fuel (WriteEntry.mk q st "File" None) c).1.2, c')
    /\ WriteEntry.linkCache c' = <[key := q]> (WriteEntry.linkCache c)
    /\ cached_share c'
    /\ WriteEntry.header_of out
       = WriteEntry.header_of
           (FILE fuel (WriteEntry.mk q st "File" None) c).1.1
    /\ WriteEntry.body_of out
       = WriteEntry.body_of
           (FILE fuel (WriteEntry.mk q st "File" None) c).1.1.
Proof.
  intros Hs Hk Hc. pose proof Hs as (Hf & Hd & Hi & Hn).
  unfold WriteEntry.ONLSTAT. rewrite (getType_File st Hf).
  set (e := WriteEntry.mk q st "File" None).
  assert (forall c1, PROCESS fuel e c1 = FILE fuel e c1) as HP
    by reflexivity.
  rewrite !HP.
  rewrite !FILE_fresh
    by (try exact Hn; cbn [WriteEntry.stat e WriteEntry.linkCache];
        by rewrite (shares_linkKey st Hs)).
  cbn [WriteEntry.stat WriteEntry.path e WriteEntry.linkCache
       WriteEntry.statCache fst snd].
  rewrite (shares_linkKey st Hs).
  destruct rev; eexists _, _; (split; [reflexivity|]);
    (split; [reflexivity|]).
  - split; [by apply cached_share_insert|]. split; reflexivity.
  - split; [exact Hc|]. split; reflexivity.
Qed.

Lemma create_linked fuel (p0 : string) (ps : list string) c :
  (forall q, In q ps ->
     Q q /\ exists st, WriteEntry.lstat FS q = inr st
                       /\ WriteEntry.shares d i st) ->
  cached_share c ->
  WriteEntry.linkCache c !! key = Some p0 ->
  exists rest c',
    create fuel ps c = (rest, c')
    /\ WriteEntry.linkCache c' = WriteEntry.linkCache c
    /\ Forall2 (fun q o => links_to p0 q o) ps rest.
Proof.
  revert c. induction ps as [|q ps IH]; intros c Hl Hc Hk.
  - exists [], c. by repeat split.
  - cbn [WriteEntry.create].
    destruct (constructor_stat fuel q c) as (st & Hs & ->);
      [apply Hl; by left|apply Hl; by left|exact Hc|].
    destruct (ONLSTAT_linked fuel q p0 st c Hs Hk Hc)
      as (out & c1 & -> & Hlc & Hc1 & Hlink).
    destruct (IH c1) as (rest & c' & -> & Hlc' & Hall);
      [intros; apply Hl; by right|exact Hc1|by rewrite Hlc|].
    eexists _, _. split; [reflexivity|]. split; [congruence|].
    by constructor.
Qed.

End Shared.

(** What [[FILE]] does with a file whose key is not in the link cache,
    when the file can be opened and read. *)
Lemma FILE_first fuel e c fd (content : Buffer) :
  (1 < WriteEntry.nlink (WriteEntry.stat e))%N ->
  WriteEntry.linkCache c !! WriteEntry.linkKey (WriteEntry.stat e) = None ->
  WriteEntry.open FS (WriteEntry.path e) = inr fd ->
  (forall pos len,
     WriteEntry.read FS fd pos len
     = inr (take len (drop (Z.to_nat pos) content))) ->
  WriteEntry.size (WriteEntry.stat e) = Z.of_nat (length content) ->
  length content <= fuel ->
  exists out c' f,
    FILE fuel e c = (out, WriteEntry.Returned, c')
    /\ WriteEntry.linkCache c'
       = <[WriteEntry.linkKey (WriteEntry.stat e) := WriteEntry.path e]>
           (WriteEntry.linkCache c)
    /\ WriteEntry.header_of out = Some f
    /\ WriteEntry.f_path f = WriteEntry.path e
    /\ WriteEntry.f_type f = WriteEntry.type e
    /\ WriteEntry.f_linkpath f = WriteEntry.linkpath e
    /\ WriteEntry.f_size f = WriteEntry.size (WriteEntry.stat e)
    /\ concat (WriteEntry.body_of out)
       = content
           ++ (if (WriteEntry.size (WriteEntry.stat e) =? 0)%Z then []
               else repeat x00
                      (Z.to_nat
                         (WriteEntry.blockLen rev
                            (WriteEntry.size (WriteEntry.stat e))
                          - WriteEntry.size (WriteEntry.stat e))))
    /\ In WriteEntry.end_ out.
Proof.
  intros Hn Hk Ho Hr Hs Hfuel. rewrite (FILE_fresh fuel e c Hn Hk).
  destruct (WriteEntry.size (WriteEntry.stat e) =? 0)%Z eqn:Hz.
  - apply Z.eqb_eq in Hz.
    assert (content = []) as -> by (destruct content; [done|cbn in Hs; lia]).
    destruct (header_of_HEADER e [WriteEntry.end_])
      as (f & Hh & Hp & Hl & Ht & Hsz).
    eexists _, _, f. split; [reflexivity|]. split; [reflexivity|].
    repeat (split; [assumption|]). split.
    + by rewrite body_of_HEADER.
    + apply in_or_app. right. by left.
  - apply Z.eqb_neq in Hz.
    destruct (OPENFILE_reads fuel e fd content Ho Hr Hs) as (chunks & E & Hc);
      [intros ->; cbn in Hs; lia|exact Hfuel|].
    rewrite E. cbn [fst snd].
    destruct (header_of_HEADER e
                (map WriteEntry.write chunks
                   ++ [WriteEntry.end_; WriteEntry.close fd]))
      as (f & Hh & Hp & Hl & Ht & Hsz).
    eexists _, _, f. split; [reflexivity|]. split; [reflexivity|].
    repeat (split; [assumption|]). split.
    + rewrite body_of_HEADER, body_of_writes by (repeat constructor).
      exact Hc.
    + apply in_or_app. right. apply in_or_app. right. by left.
Qed.


End WriteEntryProperties.

(** * The archive writer on actual files *)



Lemma shrunk_file_throws_witness :
  let '(out, x, _) :=
    WriteEntry.constructor (fun _ => false) "" (Examples.shrunk_disk 5 1)
      WriteEntry.Later 1 "a" Examples.no_caches in
  x = WriteEntry.Thrown "wat"
  /\ WriteEntry.body_of out = []
  /\ ~ In WriteEntry.end_ out
  /\ ~ In (WriteEntry.close 3) out
  /\ (forall er, ~ In (WriteEntry.emit_error er) out).
Proof.
  apply (shrunk_file_throws (fun _ => false) "" (Examples.shrunk_disk 5 1)
           WriteEntry.Later 0 "a" Examples.no_caches
           (Examples.file_stat 5 1) 3).
  - cbn. by rewrite lookup_empty.
  - reflexivity.
  - reflexivity.
  - by vm_compute.
  - discriminate.
  - reflexivity.
  - reflexivity.
Defined.

(** * Properties of the path functions and of the extractor *)

(** *** Splitting and joining *)

Lemma string_app_nil_r (a : string) : a +:+ "" = a.
Proof.
  induction a as [|x a IH]; [reflexivity|].
  change (String x (a +:+ "") = String x a). congruence.
Qed.

Lemma split_slash (s : string) : path.split ("/" +:+ s) = "" :: path.split s.
Proof. reflexivity. Qed.

Lemma split_nonempty (s : string) : path.split s <> [].
Proof.
  destruct s as [|c s]; [discriminate|]. cbn [path.split].
  destruct (Ascii.eqb c path.slash); [discriminate|].
  by destruct (path.split s).
Qed.

Lemma split_noslash (s : string) :
  path.noslash s = true -> path.split s = [s].
Proof.
  induction s as [|c s IH]; [reflexivity|]. cbn [path.noslash path.split].
  intros [Hc Hs]%andb_prop. apply negb_true_iff in Hc. rewrite Hc.
  by rewrite IH.
Qed.

Lemma split_app (a b : string) :
  path.split (a +:+ "/" +:+ b)
  = path.split a ++ path.split b.
Proof.
  induction a as [|c a IH]; [reflexivity|].
  change (String c a +:+ "/" +:+ b) with (String c (a +:+ "/" +:+ b)).
  cbn [path.split]. destruct (Ascii.eqb c path.slash).
  - by rewrite IH.
  - rewrite IH. pose proof (split_nonempty a).
    by destruct (path.split a).
Qed.

Lemma Forall_noslash_split (s : string) :
  Forall (fun x => path.noslash x = true) (path.split s).
Proof.
  induction s as [|c s IH]; [by repeat constructor|]. cbn [path.split].
  destruct (Ascii.eqb c path.slash) eqn:Hc; [by constructor|].
  destruct (path.split s) as [|x r]; [by repeat constructor; cbn; rewrite Hc|].
  inversion_clear IH. constructor; [|assumption].
  cbn. by rewrite Hc.
Qed.

Lemma split_join_slash (l : list string) :
  l <> [] -> Forall (fun x => path.noslash x = true) l ->
  path.split (path.join_slash l) = l.
Proof.
  induction l as [|x l IH]; [done|]. intros _ Hl. inversion_clear Hl.
  destruct l as [|y l]; [by apply split_noslash|].
  change (path.join_slash (x :: y :: l))
    with (x +:+ "/" +:+ path.join_slash (y :: l)).
  rewrite split_app, IH, split_noslash by done. reflexivity.
Qed.

(** *** Normalizing *)

Lemma plain_spec (seg : string) :
  path.plain seg = true ->
  path.noslash seg = true /\ String.eqb seg "" = false
  /\ String.eqb seg "." = false /\ String.eqb seg ".." = false.
Proof.
  unfold path.plain. intros H.
  repeat (apply andb_prop in H; destruct H as [H ?]).
  repeat split; try assumption; by apply negb_true_iff.
Qed.

Lemma normalizeSegment_plain (a : bool) (res : list string) (seg : string) :
  path.plain seg = true -> path.normalizeSegment a res seg = seg :: res.
Proof.
  intros (_ & H1 & H2 & H3)%plain_spec. unfold path.normalizeSegment.
  by rewrite H1, H2, H3.
Qed.

Lemma fold_plain (a : bool) (l res : list string) :
  Forall (fun x => path.plain x = true) l ->
  fold_left (path.normalizeSegment a) l res = rev l ++ res.
Proof.
  revert res. induction l as [|x l IH]; intros res Hl; [reflexivity|].
  inversion_clear Hl. cbn [fold_left rev].
  rewrite normalizeSegment_plain, IH by assumption.
  by rewrite <- app_assoc.
Qed.

Lemma fold_dots (k j : nat) :
  fold_left (path.normalizeSegment true) (repeat ".." k) (repeat ".." j)
  = repeat ".." (k + j).
Proof.
  revert j. induction k as [|k IH]; intros j; [reflexivity|].
  cbn [repeat fold_left].
  replace (path.normalizeSegment true (repeat ".." j) "..")
    with (repeat ".." (S j)) by by destruct j.
  rewrite IH. f_equal. lia.
Qed.

Lemma normal_nil (a : bool) : path.normal a [].
Proof. exists 0, []. by repeat split. Qed.

Lemma normalizeSegment_normal (a : bool) (res : list string) (seg : string) :
  path.noslash seg = true -> path.normal a res ->
  path.normal a (path.normalizeSegment a res seg).
Proof.
  intros Hs (k & cl & -> & Hcl & Hk). unfold path.normalizeSegment.
  destruct (String.eqb seg "" || String.eqb seg ".") eqn:E1;
    [by exists k, cl|].
  apply orb_false_elim in E1 as [E1 E1'].
  destruct (String.eqb seg "..") eqn:E2.
  - destruct cl as [|top cl]; cbn [app].
    + destruct k as [|k]; cbn [repeat].
      * destruct a; [by exists 1, []|by exists 0, []].
      * cbn [String.eqb Ascii.eqb Bool.eqb].
        destruct a; [|by exists (S k), []].
        exists (S (S k)), []. by repeat split.
    + inversion_clear Hcl as [|?? Htop Hcl'].
      apply plain_spec in Htop as (_ & _ & _ & ->).
      by exists k, cl.
  - exists k, (seg :: cl). repeat split; [|assumption].
    constructor; [|assumption]. unfold path.plain.
    by rewrite Hs, E1, E1', E2.
Qed.

Lemma fold_normal (a : bool) (l res : list string) :
  Forall (fun x => path.noslash x = true) l -> path.normal a res ->
  path.normal a (fold_left (path.normalizeSegment a) l res).
Proof.
  revert res. induction l as [|x l IH]; intros res Hl Hr; [exact Hr|].
  inversion_clear Hl. cbn [fold_left]. apply IH; [assumption|].
  by apply normalizeSegment_normal.
Qed.

Lemma normalizeString_normal (s : string) (a : bool) :
  path.normal a (rev (path.normalizeString s a)).
Proof.
  unfold path.normalizeString. rewrite rev_involutive.
  apply fold_normal; [apply Forall_noslash_split|apply normal_nil].
Qed.

(** Normalizing segments that are normal already changes nothing. *)
Lemma normal_refold (a : bool) (res : list string) :
  path.normal a res ->
  fold_left (path.normalizeSegment a) (rev res) [] = res.
Proof.
  intros (k & cl & -> & Hcl & Hk).
  rewrite rev_app_distr, fold_left_app.
  assert (fold_left (path.normalizeSegment a) (rev (repeat ".." k)) []
          = repeat ".." k) as ->.
  { destruct a.
    - pose proof (fold_dots k 0) as H.
      change (repeat ".." 0) with (@nil string) in H.
      rewrite rev_repeat, H. f_equal. lia.
    - by rewrite Hk. }
  rewrite fold_plain by (by apply Forall_rev).
  by rewrite rev_involutive.
Qed.

Lemma normal_elem (a : bool) (res : list string) (x : string) :
  path.normal a res -> In x res ->
  path.noslash x = true /\ exists c y, x = String c y.
Proof.
  intros (k & cl & -> & Hcl & _) [Hx|Hx]%in_app_or.
  - rewrite Forall_forall in Hcl.
    destruct (plain_spec x) as (Hn & He & _); [by apply Hcl, list_elem_of_In|].
    split; [assumption|]. destruct x; [discriminate|eauto].
  - apply repeat_spec in Hx as ->. split; [reflexivity|eauto].
Qed.

Lemma isAbsolute_app (x y : string) :
  (exists c z, x = String c z) ->
  path.isAbsolute (x +:+ y) = path.isAbsolute x.
Proof. by intros (c & z & ->). Qed.

Lemma isAbsolute_noslash (x : string) :
  path.noslash x = true -> path.isAbsolute x = false.
Proof.
  destruct x as [|c x]; [reflexivity|]. cbn.
  intros [H _]%andb_prop. by apply negb_true_iff.
Qed.

Lemma isAbsolute_join_slash (x : string) (l : list string) :
  (exists c z, x = String c z) ->
  path.isAbsolute (path.join_slash (x :: l)) = path.isAbsolute x.
Proof.
  destruct l as [|y l]; [reflexivity|]. intros Hx.
  change (path.join_slash (x :: y :: l))
    with (x +:+ "/" +:+ path.join_slash (y :: l)).
  by apply isAbsolute_app.
Qed.

(** The result of [normalize] is absolute when its argument is, and
    normalizing its parts comes to normalizing the segments it was made
    of. *)
Lemma normalize_shape (s : string) :
  String.eqb s "" = false ->
  path.isAbsolute (path.normalize s) = path.isAbsolute s
  /\ forall b res,
       fold_left (path.normalizeSegment b) (path.split (path.normalize s)) res
       = fold_left (path.normalizeSegment b)
           (path.normalizeString s (negb (path.isAbsolute s))) res.
Proof.
  intros Hne. unfold path.normalize. rewrite Hne.
  pose proof (normalizeString_normal s (negb (path.isAbsolute s))) as Hn.
  destruct (path.normalizeString s (negb (path.isAbsolute s)))
    as [|x l] eqn:E.
  { destruct (path.isAbsolute s); [by split|].
    by destruct (path.trailingSeparator s). }
  assert (forall y, In y (x :: l) ->
            path.noslash y = true /\ exists c z, y = String c z) as Hel.
  { intros y Hy. apply (normal_elem _ _ y Hn). by apply in_rev in Hy. }
  assert (path.split (path.join_slash (x :: l)) = x :: l) as HJ.
  { apply split_join_slash; [done|]. apply Forall_forall.
    intros y Hy%list_elem_of_In. by apply Hel. }
  destruct (Hel x) as [Hx1 Hx2]; [by left|].
  set (J := path.join_slash (x :: l)) in *.
  assert (forall b res,
    fold_left (path.normalizeSegment b)
      (path.split (J +:+ (if path.trailingSeparator s then "/" else ""))) res
    = fold_left (path.normalizeSegment b) (x :: l) res) as Hpost.
  { intros b res. destruct (path.trailingSeparator s).
    - change (J +:+ "/") with (J +:+ "/" +:+ "").
      by rewrite split_app, HJ, fold_left_app.
    - by rewrite string_app_nil_r, HJ. }
  destruct (path.isAbsolute s).
  - split; [reflexivity|]. intros b res.
    rewrite split_slash. cbn [fold_left]. apply Hpost.
  - split; [|exact Hpost].
    change ("" +:+ J +:+ (if path.trailingSeparator s then "/" else ""))
      with (J +:+ (if path.trailingSeparator s then "/" else "")).
    destruct Hx2 as (c & z & ->). unfold J.
    assert (exists c' z', path.join_slash (String c z :: l) = String c' z')
      as Hj.
    { destruct l; [by eauto|]. by eexists _, _. }
    rewrite isAbsolute_app by exact Hj.
    rewrite isAbsolute_join_slash by eauto.
    by apply isAbsolute_noslash.
Qed.

Lemma segments_normalize (s : string) :
  path.segments (path.normalize s) = path.segments s
  /\ path.isAbsolute (path.normalize s) = path.isAbsolute s.
Proof.
  destruct (String.eqb s "") eqn:Hne.
  { apply String.eqb_eq in Hne as ->. by split. }
  destruct (normalize_shape s Hne) as [Ha Hf]. split; [|exact Ha].
  unfold path.segments. rewrite Ha.
  unfold path.normalizeString at 1. rewrite Hf.
  pose proof (normalizeString_normal s (negb (path.isAbsolute s))) as Hn.
  apply normal_refold in Hn. rewrite rev_involutive in Hn.
  by rewrite Hn, rev_involutive.
Qed.

(** *** Joining onto the root, and onto a directory *)

Lemma join_root (q : string) :
  path.isAbsolute (path.join ["/"; q]) = true
  /\ exists segs,
       Forall (fun x => path.plain x = true) segs
       /\ forall b res,
            fold_left (path.normalizeSegment b)
              (path.split (path.join ["/"; q])) res
            = rev segs ++ res.
Proof.
  assert (exists r, path.join ["/"; q] = path.normalize (String "/" r))
    as (r & ->).
  { unfold path.join. cbn [List.filter String.eqb negb].
    destruct (String.eqb q ""); cbn [negb]; by eexists. }
  destruct (normalize_shape (String "/" r)) as [Ha Hf]; [reflexivity|].
  split; [exact Ha|].
  pose proof (normalizeString_normal (String "/" r) false)
    as (k & cl & Hr & Hcl & Hk).
  rewrite (Hk eq_refl), app_nil_r in Hr.
  exists (path.normalizeString (String "/" r) false). split.
  - apply Forall_rev in Hcl. by rewrite <- Hr, rev_involutive in Hcl.
  - intros b res. rewrite Hf. cbn [path.isAbsolute Ascii.eqb Bool.eqb negb].
    change (Ascii.eqb "/" path.slash) with true. cbn [negb].
    apply fold_plain.
    apply Forall_rev in Hcl. by rewrite <- Hr, rev_involutive in Hcl.
Qed.

Lemma join_directory (cwd q : string) :
  cwd <> "" -> q <> "" ->
  path.join [cwd; q] = path.normalize (cwd +:+ "/" +:+ q).
Proof.
  intros Hc Hq. unfold path.join. cbn [List.filter].
  apply String.eqb_neq in Hc, Hq. by rewrite Hc, Hq.
Qed.

(** Whatever [q] is, joining it onto the root and the result onto a
    directory leads into that directory. *)
Lemma join_inside (cwd q : string) :
  cwd <> "" -> path.inside cwd (path.join [cwd; path.join ["/"; q]]).
Proof.
  intros Hc. destruct (join_root q) as (Ha & segs & Hp & Hf).
  assert (path.join ["/"; q] <> "") as Hq.
  { intros E. by rewrite E in Ha. }
  rewrite join_directory by assumption.
  unfold path.inside.
  destruct (segments_normalize (cwd +:+ "/" +:+ path.join ["/"; q]))
    as [-> ->].
  assert (path.isAbsolute (cwd +:+ "/" +:+ path.join ["/"; q])
          = path.isAbsolute cwd) as Hi.
  { apply isAbsolute_app. destruct cwd; [done|eauto]. }
  split; [exact Hi|]. exists segs. split.
  - unfold path.segments. rewrite Hi. unfold path.normalizeString.
    rewrite split_app, fold_left_app, Hf, rev_app_distr.
    by rewrite rev_involutive.
  - intros Hin. rewrite Forall_forall in Hp.
    by apply list_elem_of_In, Hp in Hin.
Qed.

(** *** The extractor *)

(** C2 (amended).  When the directory it extracts into is not the empty
    string, the target the extractor resolves for an entry lies in that
    directory, whatever the path of the entry holds (['..'] components,
    a leading ['/']) and whatever the number of components stripped: the
    path is first joined onto ['/'], which leaves nothing to step up
    from. *)
Theorem FIXPATH_inside (u : Unpack.t) (p : string) :
  Unpack.path u <> "" ->
  path.inside (Unpack.path u) (Unpack.FIXPATH u p).
Proof. intros Hc. unfold Unpack.FIXPATH. by apply join_inside. Qed.

Lemma mkdir_fresh (dir : string) (mode : N) (w : Unpack.world)
    (k : option string -> Unpack.world -> list Unpack.action * Unpack.world) :
  Unpack.answers w = [] ->
  Unpack.mkdir dir mode w k =
    (if decide (Unpack.madeDirs w !! dir = Some true) then k None w
     else
       let '(acts, w') :=
         k None (Unpack.World (<[dir := true]> (Unpack.madeDirs w)) []) in
       (Unpack.mkdirp dir mode :: acts, w')).
Proof.
  intros Ha. unfold Unpack.mkdir, Unpack.answer. rewrite Ha.
  cbn [Unpack.answers Unpack.madeDirs]. by rewrite Ha.
Qed.


(** * The extractor on an actual entry *)


(** C2 (as stated) fails: [new Unpack ('')] is accepted, and [path.join]
    drops the empty directory, so that the entry ['../evil'] is resolved
    to ['/evil'], an absolute path, which does not lie in the directory
    [''] (the working directory of the process). *)
Lemma empty_path_is_left :
  Unpack.path Examples.nowhere = ""
  /\ Unpack.FIXPATH Examples.nowhere "../evil" = "/evil"
  /\ ~ path.inside (Unpack.path Examples.nowhere)
        (Unpack.FIXPATH Examples.nowhere "../evil").
Proof.
  split; [reflexivity|]. split; [by vm_compute|].
  intros [H _]. by vm_compute in H.
Qed.

Lemma FIXPATH_inside_witness :
  path.inside "/tmp/x" (Unpack.FIXPATH Examples.extractor "../evil").
Proof. by apply (FIXPATH_inside Examples.extractor "../evil"). Defined.

